(** * Stock Counter: a shallow embedding of the request handlers and of the
    client-side diff, with the properties the specification states about them.

    Sources embedded here:
    - [pages/api/update-inventory.ts]  (module [Writer])
    - [pages/api/auth/callback.ts]     (module [Callback])
    - [pages/api/products.ts]          (module [Reader])
    - [pages/index.tsx]                (module [Diff])

    Remote services (the Admin GraphQL endpoint, the token endpoint) are
    state-transition functions over an abstract world; every outbound call
    and every timer is recorded in a trace of events. *)

From Stdlib Require Import ZArith Ascii String OrderedTypeEx.
From stdpp Require Import gmap strings list pretty sorting.

Open Scope string_scope.
Open Scope Z_scope.
Open Scope list_scope.

(** ** JavaScript primitives used by the handlers

    A text is the string of the bytes of its UTF-8 encoding; on ASCII text
    a byte is a code unit. *)
Module JS.

(** Truthiness of a string: only the empty string is falsy. *)
Definition truthy (s : string) : bool := negb (String.eqb s "").

(** Truthiness of a possibly undefined string. *)
Definition truthy_opt (o : option string) : bool :=
  match o with
  | Some s => truthy s
  | None => false
  end.

(** [a || b] where both sides are possibly undefined strings. *)
Definition or_opt (a b : option string) : option string :=
  if truthy_opt a then a else b.

(** [a || d] where [d] is a string literal. *)
Definition or_str (a : option string) (d : string) : string :=
  match a with
  | Some s => if truthy s then s else d
  | None => d
  end.

(** [a || 0] on a possibly null number: [null], [undefined] and [0] are the
    falsy cases, every other number is kept as it is. *)
Definition or_zero (a : option Z) : Z :=
  match a with
  | Some n => if Z.eqb n 0 then 0 else n
  | None => 0
  end.

(** [Number.prototype.toString] on an integer: decimal digits, a leading
    minus sign for negatives. *)
Definition toString (n : Z) : string := pretty n.

(** [String.prototype.split] on a one-character separator.  The result is
    never empty: [split sep ""] is [[""]]. *)
Fixpoint split (sep : ascii) (s : string) : list string :=
  match s with
  | EmptyString => [EmptyString]
  | String c s' =>
      if Ascii.eqb c sep then EmptyString :: split sep s'
      else match split sep s' with
           | [] => [String c EmptyString]
           | h :: t => String c h :: t
           end
  end.

(** The character does not occur in the string. *)
Fixpoint absent (c : ascii) (s : string) : bool :=
  match s with
  | EmptyString => true
  | String c' s' => negb (Ascii.eqb c' c) && absent c s'
  end.

(** [Array.prototype.join]. *)
Fixpoint join (sep : string) (l : list string) : string :=
  match l with
  | [] => ""
  | [x] => x
  | x :: rest => x +:+ sep +:+ join sep rest
  end.

Definition is_space (c : ascii) : bool :=
  let n := nat_of_ascii c in
  (Nat.eqb n 32 || Nat.eqb n 9 || Nat.eqb n 10 || Nat.eqb n 11
   || Nat.eqb n 12 || Nat.eqb n 13)%bool.

(** White space beyond ASCII, in the UTF-8 bytes of the text: U+00A0 is two
    bytes; U+1680, U+2000 to U+200A, U+2028, U+2029, U+202F, U+205F, U+3000
    and U+FEFF are three. *)
Definition is_lead (c : ascii) : bool :=
  let n := nat_of_ascii c in
  (Nat.eqb n 194 || Nat.eqb n 225 || Nat.eqb n 226 || Nat.eqb n 227
   || Nat.eqb n 239)%bool.

Definition is_nbsp (c d : ascii) : bool :=
  (Nat.eqb (nat_of_ascii c) 194 && Nat.eqb (nat_of_ascii d) 160)%bool.

Definition is_wide_space (c d e : ascii) : bool :=
  let c := nat_of_ascii c in
  let d := nat_of_ascii d in
  let e := nat_of_ascii e in
  (Nat.eqb c 225 && Nat.eqb d 154 && Nat.eqb e 128
   || Nat.eqb c 226 && Nat.eqb d 128
      && (Nat.leb 128 e && Nat.leb e 138 || Nat.eqb e 168 || Nat.eqb e 169
          || Nat.eqb e 175)
   || Nat.eqb c 226 && Nat.eqb d 129 && Nat.eqb e 159
   || Nat.eqb c 227 && Nat.eqb d 128 && Nat.eqb e 128
   || Nat.eqb c 239 && Nat.eqb d 187 && Nat.eqb e 191)%bool.

Fixpoint trimStart (s : string) : string :=
  match s with
  | EmptyString => EmptyString
  | String c r =>
      if is_space c then trimStart r
      else if negb (is_lead c) then s
      else
        match r with
        | String d r1 =>
            if is_nbsp c d then trimStart r1
            else
              match r1 with
              | String e r2 => if is_wide_space c d e then trimStart r2 else s
              | EmptyString => s
              end
        | EmptyString => s
        end
  end.

(** The text is made of white space only. *)
Fixpoint all_space (s : string) : bool :=
  match s with
  | EmptyString => true
  | String c r =>
      if is_space c then all_space r
      else if negb (is_lead c) then false
      else
        match r with
        | String d r1 =>
            if is_nbsp c d then all_space r1
            else
              match r1 with
              | String e r2 => (is_wide_space c d e && all_space r2)%bool
              | EmptyString => false
              end
        | EmptyString => false
        end
  end.

Fixpoint trimEnd (s : string) : string :=
  match s with
  | EmptyString => EmptyString
  | String c r => if all_space s then EmptyString else String c (trimEnd r)
  end.

(** [String.prototype.trim]. *)
Definition trim (s : string) : string := trimEnd (trimStart s).

(** [String.prototype.startsWith]. *)
Definition startsWith (s p : string) : bool := String.prefix p s.

(** [Array.prototype.find]. *)
Fixpoint find {A} (p : A → bool) (l : list A) : option A :=
  match l with
  | [] => None
  | x :: rest => if p x then Some x else find p rest
  end.

(** Comparison of two strings by their code units, as a number: what the
    default comparator of [Array.prototype.sort] computes on strings. *)
Definition compare_code_units (a b : string) : Z :=
  match String_as_OT.cmp a b with
  | Lt => -1
  | Eq => 0
  | Gt => 1
  end.

(** [Array.prototype.sort(cmp)].  The language fixes the result for a
    consistent comparator: the arrangement of the elements in which
    [cmp a b <= 0] holds along the array and elements that compare equal keep
    their relative order (the sort is stable).  Insertion from the right
    computes that arrangement. *)
Section Sort.
Context {A : Type} (cmp : A → A → Z).

Fixpoint insert (x : A) (l : list A) : list A :=
  match l with
  | [] => [x]
  | y :: rest => if cmp x y <=? 0 then x :: y :: rest else y :: insert x rest
  end.

Fixpoint sort (l : list A) : list A :=
  match l with
  | [] => []
  | x :: rest => insert x (sort rest)
  end.

End Sort.

(** Two elements the comparator does not tell apart. *)
Definition tied {A : Type} (cmp : A → A → Z) (a b : A) : bool :=
  (cmp a b <=? 0) && (cmp b a <=? 0).

Definition is_digit (c : ascii) : bool :=
  let n := nat_of_ascii c in (Nat.leb 48 n && Nat.leb n 57)%bool.

Definition digit_value (c : ascii) : Z := Z.of_nat (nat_of_ascii c) - 48.

(** The regular expression [/^\d*$/]. *)
Fixpoint all_digits (s : string) : bool :=
  match s with
  | EmptyString => true
  | String c s' => (is_digit c && all_digits s')%bool
  end.

(** The longest prefix of decimal digits, read as a number; [None] when the
    string does not start with a digit. *)
Fixpoint read_digits (acc : option Z) (s : string) : option Z :=
  match s with
  | EmptyString => acc
  | String c s' =>
      if is_digit c
      then read_digits (Some (10 * default 0 acc + digit_value c)) s'
      else acc
  end.

(** [parseInt(s, 10)]: leading white space is skipped, one sign is accepted,
    then the longest run of digits is read; [None] stands for [NaN].  The
    result is the integer read, which is the code's number wherever that
    number is exact (magnitudes up to 2^53). *)
Definition parseInt (s : string) : option Z :=
  match trimStart s with
  | String "-" s' => Z.opp <$> read_digits None s'
  | String "+" s' => read_digits None s'
  | s' => read_digits None s'
  end.

End JS.

(** The value thrown by a rejected promise or a failing property access:
    an [Error] with its message, or some other value. *)
Inductive Thrown :=
  | ErrorObject (message : string)
  | OtherValue.

(** [error instanceof Error ? error.message : fallback], the shape every
    outer [catch] of the handlers gives its 500 body. *)
Definition thrown_message (e : Thrown) (fallback : string) : string :=
  match e with
  | ErrorObject m => m
  | OtherValue => fallback
  end.

(** The pair of cookie lookups that open the handlers:
    [cookies.split(';').find(c => c.trim().startsWith(name))] followed by
    [?.split('=')[1]]. *)
Definition cookie_entry (name : string) (cookies : string) : option string :=
  JS.find (λ c, JS.startsWith (JS.trim c) name) (JS.split ";" cookies).

Definition cookie_value (name : string) (cookies : string) : option string :=
  c ← cookie_entry name cookies; JS.split "=" c !! 1%nat.


(** ** What a [fetch] gives back *)
Module Http.

(** [response.json()]: the promise rejects (the body is not JSON, or what
    was parsed lacks the object the handler reads next), or yields data. *)
Inductive Json (A : Type) :=
  | JsonRejected (e : Thrown)
  | JsonValue (d : A).
Arguments JsonRejected {A} e.
Arguments JsonValue {A} d.

(** [await fetch(...)]: the promise rejects (no HTTP response at all), or
    resolves to a response with a status and a body. *)
Inductive FetchResult (A : Type) :=
  | FetchRejected (e : Thrown)
  | FetchResponse (status : Z) (body : Json A).
Arguments FetchRejected {A} e.
Arguments FetchResponse {A} status body.

(** [response.ok]: the status is in the range 200-299. *)
Definition ok (status : Z) : bool := (200 <=? status) && (status <=? 299).

(** One entry of a GraphQL [errors] or [userErrors] list. *)
Record GqlError := { message : option string }.

(** [list?.[0]?.message] *)
Definition first_message (l : option (list GqlError)) : option string :=
  l ← l; e ← head l; message e.

(** A value of [req.query]: one string, or an array of strings when the
    parameter is repeated. *)
Inductive QueryValue :=
  | QString (s : string)
  | QArray (l : list string).

End Http.

(** ** The inventory writer: [pages/api/update-inventory.ts] *)
Module Writer.
Import Http.

Record Env := {
  SHOP : option string;
  SHOPIFY_ACCESS_TOKEN : option string
}.

Definition DEFAULT_SHOP (env : Env) : string :=
  JS.or_str (SHOP env) "panel-company.myshopify.com".

Record InventoryUpdate := {
  inventoryItemId : string;
  locationId : string;
  quantity : Z
}.

(** The request as the handler reads it: the method, the [cookie] header
    and [req.body.updates] ([None]: absent or not an array). *)
Record Request := {
  method : string;
  cookie : option string;
  updates : option (list InventoryUpdate)
}.

Record Auth := { accessToken : option string; shop : string }.

Definition getAuthFromCookies (env : Env) (req : Request) : Auth :=
  let cookies := JS.or_str (cookie req) "" in
  let tokenCookie := cookie_value "shopify_access_token=" cookies in
  let shopCookie := cookie_value "shopify_shop=" cookies in
  {| accessToken := JS.or_opt tokenCookie (SHOPIFY_ACCESS_TOKEN env);
     shop := JS.or_str shopCookie (DEFAULT_SHOP env) |}.

(** The one entry of [variables.input.quantities]. *)
Record Quantity := {
  q_inventoryItemId : string;
  q_locationId : string;
  q_quantity : Z
}.

(** The outbound POST: endpoint, access token header, mutation variables
    (the mutation text, [name] and [reason] are constants). *)
Record MutationCall := {
  url : string;
  token : string;
  variables : Quantity
}.

Definition mutation_call (SHOP ACCESS_TOKEN : string) (update : InventoryUpdate)
    : MutationCall :=
  {| url := "https://" +:+ SHOP +:+ "/admin/api/2024-01/graphql.json";
     token := ACCESS_TOKEN;
     variables :=
       {| q_inventoryItemId := inventoryItemId update;
          q_locationId := "gid://shopify/Location/" +:+ locationId update;
          q_quantity := quantity update |} |}.

(** The part of the mutation's answer the handler looks at:
    [data.errors] and [data.data?.inventorySetQuantities?.userErrors]. *)
Record MutationData := {
  errors : option (list GqlError);
  userErrors : option (list GqlError)
}.

Record Results := {
  success : nat;
  failed : nat;
  error_list : list string
}.

Definition results0 : Results :=
  {| success := 0; failed := 0; error_list := [] |}.

(** [results.failed++; results.errors.push(msg)] *)
Definition record_failure (results : Results) (msg : string) : Results :=
  {| success := success results;
     failed := S (failed results);
     error_list := error_list results ++ [msg] |}.

(** [results.success++] *)
Definition record_success (results : Results) : Results :=
  {| success := S (success results);
     failed := failed results;
     error_list := error_list results |}.

Inductive Event :=
  | EvFetch (c : MutationCall)
  | EvDelay (ms : Z).

(** [data.errors || data.data?.inventorySetQuantities?.userErrors?.length > 0] *)
Definition has_errors (data : MutationData) : bool :=
  match errors data with
  | Some _ => true
  | None =>
      match userErrors data with
      | Some l => bool_decide (0 < length l)%nat
      | None => false
      end
  end.

Definition errorMsg (data : MutationData) : string :=
  JS.or_str
    (JS.or_opt (first_message (errors data)) (first_message (userErrors data)))
    "Unknown error".

(** The body of the [for] loop after [await fetch]: what it throws, or the
    updated tallies together with the timer it awaits before the next
    iteration.  The [continue] of the [!response.ok] branch leaves the
    iteration before the [setTimeout] line is reached. *)
Definition after_fetch (update : InventoryUpdate) (results : Results)
    (response : FetchResult MutationData) : Thrown + Results * list Event :=
  match response with
  | FetchRejected e => inl e
  | FetchResponse status body =>
      if negb (ok status) then
        inr (record_failure results
               ("API error for " +:+ inventoryItemId update +:+ ": "
                +:+ JS.toString status),
             [])
      else
        match body with
        | JsonRejected e => inl e
        | JsonValue data =>
            let results' :=
              if has_errors data then
                record_failure results
                  ("Failed " +:+ inventoryItemId update +:+ ": " +:+ errorMsg data)
              else record_success results in
            inr (results', [EvDelay 100])
        end
  end.

Section Handler.
Context {World : Type}.
(** The remote GraphQL endpoint. *)
Variable fetch : World → MutationCall → FetchResult MutationData * World.

(** [for (const update of updates) { ... }] *)
Fixpoint process (SHOP ACCESS_TOKEN : string) (updates : list InventoryUpdate)
    (results : Results) (w : World)
    : (Thrown + Results) * World * list Event :=
  match updates with
  | [] => (inr results, w, [])
  | update :: rest =>
      let c := mutation_call SHOP ACCESS_TOKEN update in
      let '(response, w1) := fetch w c in
      match after_fetch update results response with
      | inl e => (inl e, w1, [EvFetch c])
      | inr (results', evs) =>
          let '(out, w2, tr) := process SHOP ACCESS_TOKEN rest results' w1 in
          (out, w2, EvFetch c :: evs ++ tr)
      end
  end.

Inductive Response :=
  | Json405 (error : string)
  | Json401 (error : string) (needsAuth : bool)
  | Json400 (error : string)
  | Json200 (results : Results)
  | Json500 (error : string).

Definition status_code (r : Response) : Z :=
  match r with
  | Json405 _ => 405
  | Json401 _ _ => 401
  | Json400 _ => 400
  | Json200 _ => 200
  | Json500 _ => 500
  end.

Definition handler (env : Env) (req : Request) (w : World)
    : Response * World * list Event :=
  if negb (String.eqb (method req) "POST") then
    (Json405 "Method not allowed", w, [])
  else
    let auth := getAuthFromCookies env req in
    match accessToken auth with
    | None => (Json401 "Not authenticated" true, w, [])
    | Some ACCESS_TOKEN =>
        if negb (JS.truthy ACCESS_TOKEN) then
          (Json401 "Not authenticated" true, w, [])
        else
          match updates req with
          | None | Some [] => (Json400 "No updates provided", w, [])
          | Some l =>
              let '(out, w', tr) := process (shop auth) ACCESS_TOKEN l results0 w in
              match out with
              | inr results => (Json200 results, w', tr)
              | inl e =>
                  (Json500 (thrown_message e "Failed to update inventory"), w', tr)
              end
          end
    end.

(** The answers the endpoint gives along a batch, each call made on the
    world the previous call left. *)
Fixpoint responses (SHOP ACCESS_TOKEN : string) (updates : list InventoryUpdate)
    (w : World) : list (FetchResult MutationData) :=
  match updates with
  | [] => []
  | update :: rest =>
      let '(response, w1) := fetch w (mutation_call SHOP ACCESS_TOKEN update) in
      response :: responses SHOP ACCESS_TOKEN rest w1
  end.

End Handler.

(** The calls of a trace, in the order they were made. *)
Definition fetches (tr : list Event) : list MutationCall :=
  omap (λ e, match e with EvFetch c => Some c | EvDelay _ => None end) tr.

(** A call answered with a response whose body, when it is read, parses:
    nothing is thrown in that iteration. *)
Definition answered (r : FetchResult MutationData) : bool :=
  match r with
  | FetchRejected _ => false
  | FetchResponse status (JsonRejected _) => negb (ok status)
  | FetchResponse _ (JsonValue _) => true
  end.

(** The per-update classification of the loop: [Some msg] for an update
    counted as failed (with the message pushed for it), [None] for one
    counted as a success. *)
Definition verdict (update : InventoryUpdate) (r : FetchResult MutationData)
    : option string :=
  match r with
  | FetchRejected _ => None
  | FetchResponse status body =>
      if negb (ok status) then
        Some ("API error for " +:+ inventoryItemId update +:+ ": "
              +:+ JS.toString status)
      else
        match body with
        | JsonValue data =>
            if has_errors data
            then Some ("Failed " +:+ inventoryItemId update +:+ ": " +:+ errorMsg data)
            else None
        | JsonRejected _ => None
        end
  end.

(** The batch contract in the specification's words, for the update list
    [l] of a request: an empty list is refused with 400 before any call;
    otherwise there is one call per update, in input order, and the result
    carries tallies that add up to the number of updates. *)
Definition batch_contract_as_specified {World : Type}
    (fetch : World → MutationCall → FetchResult MutationData * World)
    (env : Env) (req : Request) (w : World) (l : list InventoryUpdate) : Prop :=
  updates req = Some l →
  let '(resp, _, tr) := handler fetch env req w in
  (l = [] → status_code resp = 400 ∧ fetches tr = [])
  ∧ (l ≠ [] →
     (q_inventoryItemId ∘ variables) <$> fetches tr = inventoryItemId <$> l
     ∧ ∃ res, resp = Json200 res
              ∧ (success res + failed res = List.length l)%nat).

(** Every call of the trace is immediately followed by the 100 ms timer. *)
Fixpoint delay_after_every_call (tr : list Event) : bool :=
  match tr with
  | [] => true
  | EvFetch _ :: rest =>
      match rest with
      | EvDelay 100 :: _ => delay_after_every_call rest
      | _ => false
      end
  | EvDelay _ :: rest => delay_after_every_call rest
  end.

End Writer.

(** ** The authorization callback: [pages/api/auth/callback.ts] *)
Module Callback.
Import Http.

Record Env := {
  SHOPIFY_API_KEY : option string;
  SHOPIFY_API_SECRET : option string
}.

Record Request := {
  query : gmap string QueryValue;
  cookie : option string
}.

(** Truthiness of [req.query.name]: [undefined] and the empty string are
    falsy, an array is truthy. *)
Definition truthy (v : option QueryValue) : bool :=
  match v with
  | Some (QString s) => JS.truthy s
  | Some (QArray _) => true
  | None => false
  end.

(** A query value inside a template literal. *)
Definition render (v : QueryValue) : string :=
  match v with
  | QString s => s
  | QArray l => JS.join "," l
  end.

(** [v !== s] between a query value and a possibly undefined string. *)
Definition strict_ne (v : QueryValue) (s : option string) : bool :=
  match v, s with
  | QString a, Some b => negb (String.eqb a b)
  | _, _ => true
  end.

(** [cookies.split(';').find(...)?.split('=')[1]] for the nonce cookie. *)
Definition storedNonce (req : Request) : option string :=
  cookie_value "shopify_nonce=" (JS.or_str (cookie req) "").

(** [Object.keys(queryParams).sort()]: the keys are distinct, so their
    sorted arrangement does not depend on the order [Object.keys] lists
    them in. *)
Definition sorted_keys (queryParams : gmap string QueryValue) : list string :=
  JS.sort JS.compare_code_units (map_to_list queryParams).*1.

(** The signed message: the sorted keys, each as [key=value], joined by
    ['&']. *)
Definition message (queryParams : gmap string QueryValue) : string :=
  JS.join "&"
    ((λ key, key +:+ "=" +:+ from_option render "undefined" (queryParams !! key))
       <$> sorted_keys queryParams).

(** The POST to the token endpoint. *)
Record ExchangeCall := {
  url : string;
  client_id : string;
  client_secret : string;
  code : QueryValue
}.

Record TokenData := { access_token : option string }.

Inductive Response :=
  | Json (status : Z) (error : string)
  | Redirect (location : string) (set_cookie : list string).

Definition is_status (n : Z) (r : Response) : bool :=
  match r with
  | Json status _ => Z.eqb status n
  | Redirect _ _ => false
  end.

Section Handler.
Context {World : Type}.
(** [crypto.createHmac('sha256', key).update(message).digest('hex')] *)
Variable hmac_sha256_hex : string → string → string.
(** The platform's token endpoint. *)
Variable exchange : World → ExchangeCall → FetchResult TokenData * World.

(** The [try] block: the token exchange and what follows it. *)
Definition exchange_code (API_KEY API_SECRET : string)
    (code shop : QueryValue) (w : World)
    : Response * World * list ExchangeCall :=
  let c := {| url := "https://" +:+ render shop +:+ "/admin/oauth/access_token";
              client_id := API_KEY;
              client_secret := API_SECRET;
              code := code |} in
  let '(tokenResponse, w') := exchange w c in
  (match tokenResponse with
   | FetchRejected _ => Json 500 "Authentication failed"
   | FetchResponse status body =>
       if negb (ok status) then Json 500 "Failed to get access token"
       else
         match body with
         | JsonRejected _ => Json 500 "Authentication failed"
         | JsonValue tokenData =>
             let accessToken := default "undefined" (access_token tokenData) in
             Redirect "/"
               [ "shopify_access_token=" +:+ accessToken
                   +:+ "; Path=/; HttpOnly; Secure; SameSite=Lax; Max-Age=31536000";
                 "shopify_shop=" +:+ render shop
                   +:+ "; Path=/; HttpOnly; Secure; SameSite=Lax; Max-Age=31536000";
                 "shopify_nonce=; Path=/; HttpOnly; Secure; SameSite=Lax; Max-Age=0" ]
         end
   end, w', [c]).

(** The HMAC guard: [true] when the request is to be refused. *)
Definition hmac_invalid (API_SECRET : string) (req : Request) : bool :=
  match query req !! "hmac" with
  | Some hmac =>
      if truthy (Some hmac) then
        let queryParams := delete "hmac" (query req) in
        let generatedHmac := hmac_sha256_hex API_SECRET (message queryParams) in
        strict_ne hmac (Some generatedHmac)
      else false
  | None => false
  end.

(** The handler; the third component lists the calls made to the token
    endpoint. *)
Definition handler (env : Env) (req : Request) (w : World)
    : Response * World * list ExchangeCall :=
  match query req !! "code", query req !! "shop", query req !! "state" with
  | Some code, Some shop, Some state =>
      if negb (truthy (Some code)) || negb (truthy (Some shop))
         || negb (truthy (Some state))
      then (Json 400 "Missing required parameters", w, [])
      else
        match SHOPIFY_API_KEY env, SHOPIFY_API_SECRET env with
        | Some API_KEY, Some API_SECRET =>
            if negb (JS.truthy API_KEY) || negb (JS.truthy API_SECRET)
            then (Json 500 "API credentials not configured", w, [])
            else if strict_ne state (storedNonce req)
            then (Json 403 "Invalid state parameter", w, [])
            else if hmac_invalid API_SECRET req
            then (Json 403 "Invalid HMAC", w, [])
            else exchange_code API_KEY API_SECRET code shop w
        | _, _ => (Json 500 "API credentials not configured", w, [])
        end
  | _, _, _ => (Json 400 "Missing required parameters", w, [])
  end.

End Handler.

(** The request was refused: a JSON error with status 400, 500 or 403. *)
Definition rejected (r : Response) : Prop :=
  ∃ status error,
    r = Json status error ∧ (status = 400 ∨ status = 500 ∨ status = 403).

(** The request carries [code], [shop] and [state], as the platform's
    redirect does. *)
Definition well_formed (req : Request) : bool :=
  truthy (query req !! "code") && truthy (query req !! "shop")
  && truthy (query req !! "state").

(** Both API credentials are set. *)
Definition configured (env : Env) : bool :=
  JS.truthy_opt (SHOPIFY_API_KEY env) && JS.truthy_opt (SHOPIFY_API_SECRET env).

(** The [state] parameter is a string equal to the nonce the cookie holds. *)
Definition state_matches (req : Request) : Prop :=
  ∃ nonce, query req !! "state" = Some (QString nonce)
           ∧ storedNonce req = Some nonce.

(** The text of a cookie entry after its first ['=']: the value of the
    cookie, as the header carries it. *)
Fixpoint after_equals (s : string) : option string :=
  match s with
  | EmptyString => None
  | String c r => if Ascii.eqb c "=" then Some r else after_equals r
  end.

(** The nonce stored in the [shopify_nonce] cookie of the request. *)
Definition nonce_cookie_text (req : Request) : option string :=
  c ← cookie_entry "shopify_nonce=" (JS.or_str (cookie req) "");
  after_equals c.

(** The nonce guard in the specification's words: a [state] that is not
    the nonce stored in the cookie, a missing cookie included, is answered
    403 and the token endpoint is not called. *)
Definition state_guard_as_specified {World : Type}
    (hmac_sha256_hex : string → string → string)
    (exchange : World → ExchangeCall → FetchResult TokenData * World)
    (env : Env) (req : Request) (w : World) : Prop :=
  query req !! "state" ≠ QString <$> nonce_cookie_text req →
  let '(resp, _, calls) := handler hmac_sha256_hex exchange env req w in
  is_status 403 resp = true ∧ calls = [].

(** The HMAC guard in the specification's words: a request that carries an
    [hmac] parameter other than the digest of its remaining parameters is
    answered 403 and the token endpoint is not called. *)
Definition hmac_guard_as_specified {World : Type}
    (hmac_sha256_hex : string → string → string)
    (exchange : World → ExchangeCall → FetchResult TokenData * World)
    (env : Env) (req : Request) (w : World) : Prop :=
  ∀ supplied secret,
    query req !! "hmac" = Some supplied →
    SHOPIFY_API_SECRET env = Some secret →
    supplied ≠ QString (hmac_sha256_hex secret
                          (message (delete "hmac" (query req)))) →
    let '(resp, _, calls) := handler hmac_sha256_hex exchange env req w in
    is_status 403 resp = true ∧ calls = [].

End Callback.

(** ** The inventory reader: [pages/api/products.ts] *)
Module Reader.
Import Http.

Record Env := {
  SHOP : option string;
  SHOPIFY_ACCESS_TOKEN : option string
}.

Record Request := {
  method : string;
  locationId : option QueryValue
}.

(** The nodes of the GraphQL answer, with the fields the query selects. *)
Record InventoryLevel := {
  l_id : string;
  l_available : option Z
}.

Record InventoryItem := {
  i_id : string;
  i_inventoryLevel : option InventoryLevel
}.

Record Variant := {
  v_id : string;
  v_sku : option string;
  v_title : string;
  v_inventoryItem : option InventoryItem
}.

Record FeaturedImage := { url : option string }.

Record ProductNode := {
  p_id : string;
  p_title : string;
  p_featuredImage : option FeaturedImage;
  p_variants : list Variant
}.

(** [data.errors] and [data.data.products.edges] ([None] where
    [data.data] or [products] is missing, which makes the access throw). *)
Record ProductsData := {
  errors : option (list GqlError);
  edges : option (list ProductNode)
}.

(** One entry of the [products] array the handler returns. *)
Record Product := {
  id : string;
  productId : string;
  productTitle : string;
  variantTitle : option string;
  sku : string;
  image : option string;
  inventoryItemId : string;
  inventoryLevelId : string;
  currentStock : Z
}.

(** The object pushed for a variant that has a level at the location. *)
Definition record (product : ProductNode) (variant : Variant)
    (item : InventoryItem) (inventoryLevel : InventoryLevel) : Product :=
  {| id := v_id variant;
     productId := p_id product;
     productTitle := p_title product;
     variantTitle :=
       if negb (String.eqb (v_title variant) "Default Title")
       then Some (v_title variant) else None;
     sku := JS.or_str (v_sku variant) "No SKU";
     image := JS.or_opt (fi ← p_featuredImage product; url fi) None;
     inventoryItemId := i_id item;
     inventoryLevelId := l_id inventoryLevel;
     currentStock := JS.or_zero (l_available inventoryLevel) |}.

(** The body of the inner loop:
    [const inventoryLevel = variant.inventoryItem?.inventoryLevel;
     if (inventoryLevel) products.push({...})]. *)
Definition format_variant (product : ProductNode) (variant : Variant)
    : option Product :=
  match v_inventoryItem variant with
  | Some item =>
      match i_inventoryLevel item with
      | Some inventoryLevel => Some (record product variant item inventoryLevel)
      | None => None
      end
  | None => None
  end.

(** The two nested [for] loops, pushing onto [products]. *)
Definition format (edges : list ProductNode) : list Product :=
  foldl (λ products product,
           foldl (λ products variant,
                    match format_variant product variant with
                    | Some r => products ++ [r]
                    | None => products
                    end)
                 products (p_variants product))
        [] edges.

(** The outbound query. *)
Record QueryCall := {
  q_url : string;
  q_token : string;
  q_location : string
}.

Inductive Response :=
  | JsonError (status : Z) (error : string) (needsAuth : bool)
  | JsonProducts (products : list Product).

Section Handler.
Context {World : Type}.
(** [String.prototype.localeCompare] in the server's locale. *)
Variable localeCompare : string → string → Z.
(** The remote GraphQL endpoint. *)
Variable fetch : World → QueryCall → FetchResult ProductsData * World.

(** The [try] block after [await fetch]. *)
Definition after_fetch (response : FetchResult ProductsData)
    : Thrown + list Product :=
  match response with
  | FetchRejected e => inl e
  | FetchResponse status body =>
      if negb (ok status) then
        inl (ErrorObject ("Shopify API error: " +:+ JS.toString status))
      else
        match body with
        | JsonRejected e => inl e
        | JsonValue data =>
            match errors data with
            | Some errs =>
                inl (ErrorObject (JS.or_str (first_message (Some errs)) "GraphQL error"))
            | None =>
                match edges data with
                | None =>
                    inl (ErrorObject
                           "Cannot read properties of undefined (reading 'products')")
                | Some edges =>
                    inr (JS.sort (λ a b, localeCompare (sku a) (sku b))
                           (format edges))
                end
            end
        end
  end.

Definition handler (env : Env) (req : Request) (w : World)
    : Response * World * list QueryCall :=
  if negb (String.eqb (method req) "GET") then
    (JsonError 405 "Method not allowed" false, w, [])
  else
    match locationId req with
    | Some (QString locationId) =>
        if negb (JS.truthy locationId) then
          (JsonError 400 "Location ID is required" false, w, [])
        else if negb (JS.truthy_opt (SHOPIFY_ACCESS_TOKEN env)) then
          (JsonError 500 "Access token not configured" false, w, [])
        else
          let c := {| q_url := "https://"
                               +:+ JS.or_str (SHOP env) "panel-company.myshopify.com"
                               +:+ "/admin/api/2024-01/graphql.json";
                      q_token := default "" (SHOPIFY_ACCESS_TOKEN env);
                      q_location := "gid://shopify/Location/" +:+ locationId |} in
          let '(response, w') := fetch w c in
          (match after_fetch response with
           | inr products => JsonProducts products
           | inl e => JsonError 500 (thrown_message e "Failed to fetch products") false
           end, w', [c])
    | _ => (JsonError 400 "Location ID is required" false, w, [])
    end.

End Handler.

(** The variants of an answer that carry a level, each with its product,
    its inventory item and that level. *)
Definition stocked (edges : list ProductNode) (r : Product) : Prop :=
  ∃ product variant item inventoryLevel,
    product ∈ edges ∧ variant ∈ p_variants product
    ∧ v_inventoryItem variant = Some item
    ∧ i_inventoryLevel item = Some inventoryLevel
    ∧ r = record product variant item inventoryLevel.

(** The variant has no inventory level at the location queried. *)
Definition unstocked (variant : Variant) : Prop :=
  ∀ item, v_inventoryItem variant = Some item → i_inventoryLevel item = None.

(** The levels an answer reports. *)
Definition levels (edges : list ProductNode) : list InventoryLevel :=
  product ← edges;
  omap (λ variant, item ← v_inventoryItem variant; i_inventoryLevel item)
       (p_variants product).

End Reader.

(** ** The client's diff: [pages/index.tsx] *)
Module Diff.
Import Reader.

Record StockChange := {
  c_inventoryItemId : string;
  c_sku : string;
  oldValue : Z;
  newValue : option Z   (* [None] is [NaN] *)
}.

(** The test of the [if] inside [products.forEach]. *)
Definition edited (stockValues : gmap string string) (product : Product) : bool :=
  match stockValues !! id product with
  | Some currentValue =>
      let originalValue := JS.toString (currentStock product) in
      negb (String.eqb currentValue originalValue)
      && negb (String.eqb currentValue "")
  | None => false
  end.

(** The object pushed onto [changedItems]. *)
Definition change (stockValues : gmap string string) (product : Product)
    : StockChange :=
  {| c_inventoryItemId := inventoryItemId product;
     c_sku := sku product;
     oldValue := currentStock product;
     newValue := JS.parseInt (default "" (stockValues !! id product)) |}.

(** [changes]: the [useMemo] body, a [forEach] that pushes onto
    [changedItems]. *)
Definition changes (products : list Product) (stockValues : gmap string string)
    : list StockChange :=
  foldl (λ changedItems product,
           if edited stockValues product
           then changedItems ++ [change stockValues product]
           else changedItems)
        [] products.

(** [handleStockChange]: text that is not made of digits is dropped, any
    other text replaces the entry of [productId]. *)
Definition handleStockChange (prev : gmap string string)
    (productId value : string) : gmap string string :=
  if negb (String.eqb value "") && negb (JS.all_digits value) then prev
  else <[productId := value]> prev.

(** The diff in the specification's words: a change is emitted for a
    record exactly when its edit exists, is not empty and parses to a number
    other than the record's current stock. *)
Definition emitted_as_specified (stockValues : gmap string string)
    (product : Product) : bool :=
  match stockValues !! id product with
  | Some currentValue =>
      negb (String.eqb currentValue "")
      && bool_decide (JS.parseInt currentValue ≠ Some (currentStock product))
  | None => false
  end.

End Diff.

(** ** The authorization redirect: [pages/api/auth/index.ts] *)
Module Authorize.
Import Http.

Record Env := {
  SHOP : option string;
  SHOPIFY_API_KEY : option string;
  VERCEL_URL : option string;
  SHOPIFY_APP_URL : option string
}.

Definition SCOPES : string :=
  "read_products,read_inventory,write_inventory,read_locations".

(** [VERCEL_URL ? `https://${VERCEL_URL}` : SHOPIFY_APP_URL || '...'] *)
Definition APP_URL (env : Env) : string :=
  if JS.truthy_opt (VERCEL_URL env)
  then "https://" +:+ default "" (VERCEL_URL env)
  else JS.or_str (SHOPIFY_APP_URL env) "https://stock-counter-rho.vercel.app".

(** One hexadecimal digit, in the given alphabet. *)
Definition hex_digit (alphabet : string) (d : N) : ascii :=
  default "0"%char (String.get (N.to_nat d) alphabet).

(** The two digits of a byte value. *)
Definition hex_pair (alphabet : string) (n : N) : string :=
  String (hex_digit alphabet (n `div` 16))
    (String (hex_digit alphabet (n `mod` 16)) EmptyString).

(** [Buffer.prototype.toString('hex')]: two lowercase digits per byte. *)
Fixpoint toHex (bytes : list Byte.byte) : string :=
  match bytes with
  | [] => ""
  | b :: rest => hex_pair "0123456789abcdef" (Byte.to_N b) +:+ toHex rest
  end.

(** The characters [encodeURIComponent] leaves as they are:
    [A-Z a-z 0-9 - _ . ! ~ * ' ( )]. *)
Definition unreserved (c : ascii) : bool :=
  let n := nat_of_ascii c in
  (Nat.leb 65 n && Nat.leb n 90) || (Nat.leb 97 n && Nat.leb n 122)
  || (Nat.leb 48 n && Nat.leb n 57)
  || Nat.eqb n 45 || Nat.eqb n 95 || Nat.eqb n 46 || Nat.eqb n 33
  || Nat.eqb n 126 || Nat.eqb n 42 || Nat.eqb n 39 || Nat.eqb n 40
  || Nat.eqb n 41.

(** [encodeURIComponent] on the UTF-8 bytes of a string: every other byte
    becomes [%XX] with uppercase digits. *)
Fixpoint encodeURIComponent (s : string) : string :=
  match s with
  | EmptyString => EmptyString
  | String c rest =>
      (if unreserved c then String c EmptyString
       else String "%" (hex_pair "0123456789ABCDEF" (N_of_ascii c)))
      +:+ encodeURIComponent rest
  end.

Inductive Response :=
  | Json (status : Z) (error : string)
  | Redirect (location : string) (set_cookie : string).

(** [randomBytes] is what [crypto.randomBytes(16)] returned. *)
Definition handler (env : Env) (shop_param : option QueryValue)
    (randomBytes : list Byte.byte) : Response :=
  let shop :=
    if Callback.truthy shop_param
    then from_option Callback.render "" shop_param
    else JS.or_str (SHOP env) "panel-company.myshopify.com" in
  match SHOPIFY_API_KEY env with
  | None => Json 500 "API key not configured"
  | Some API_KEY =>
      if negb (JS.truthy API_KEY) then Json 500 "API key not configured"
      else
        let nonce := toHex randomBytes in
        let redirectUri := APP_URL env +:+ "/api/auth/callback" in
        let authUrl :=
          "https://" +:+ shop +:+ "/admin/oauth/authorize?"
          +:+ "client_id=" +:+ API_KEY
          +:+ "&scope=" +:+ SCOPES
          +:+ "&redirect_uri=" +:+ encodeURIComponent redirectUri
          +:+ "&state=" +:+ nonce in
        Redirect authUrl
          ("shopify_nonce=" +:+ nonce
           +:+ "; Path=/; HttpOnly; Secure; SameSite=Lax")
  end.

(** The [state] a redirect URL ends with. *)
Definition ends_with_state (location nonce : string) : Prop :=
  ∃ front, location = front +:+ "&state=" +:+ nonce.

End Authorize.

(** ** The page: [pages/index.tsx] *)
Module Page.
Import Http Reader Diff.

(** The map [fetchProducts] and [handleDiscard] build:
    [products.forEach(product => initialValues[product.id] =
       product.currentStock.toString())]. *)
Definition initialValues (products : list Product) : gmap string string :=
  foldl (λ initialValues product,
           <[id product := JS.toString (currentStock product)]> initialValues)
        ∅ products.

Definition handleDiscard (products : list Product) : gmap string string :=
  initialValues products.

(** [changes] as the page first computed it: [products.filter(...).map(...)]. *)
Definition changes_filter_map (products : list Product)
    (stockValues : gmap string string) : list StockChange :=
  (λ product,
     {| c_inventoryItemId := inventoryItemId product;
        c_sku := sku product;
        oldValue := currentStock product;
        newValue := JS.parseInt (default "" (stockValues !! id product)) |})
  <$> List.filter
        (λ product,
           match stockValues !! id product with
           | Some currentValue =>
               negb (String.eqb currentValue (JS.toString (currentStock product)))
               && negb (String.eqb currentValue "")
           | None => false
           end)
        products.

(** Every text of the edit buffer is made of digits. *)
Definition digits_only (stockValues : gmap string string) : Prop :=
  ∀ k v, stockValues !! k = Some v → JS.all_digits v = true.

(** A run of input events, each handled by [handleStockChange]. *)
Definition type_all (stockValues : gmap string string)
    (events : list (string * string)) : gmap string string :=
  foldl (λ prev e, handleStockChange prev e.1 e.2) stockValues events.

(** The mutation [handleSave] sends through App Bridge for one change: the
    three values interpolated into its text. *)
Record BridgeMutation := {
  m_inventoryItemId : string;
  m_locationId : string;
  m_quantity : option Z
}.

Record Tally := { success : nat; failed : nat }.

Inductive Toast :=
  | ToastError (message : string)
  | ToastSuccess (message : string).

Section Bridge.
Context {World : Type}.
(** [window.shopify.graphql]: it throws, or resolves to a response of
    which the page reads [inventorySetQuantities?.userErrors]. *)
Variable graphql : World → BridgeMutation → (Thrown + option (list GqlError)) * World.

(** The [for] loop of the first [handleSave]: each call sits in a
    [try]/[catch] of its own. *)
Fixpoint save_each (location : string) (changes : list StockChange)
    (t : Tally) (w : World) : Tally * World * list BridgeMutation :=
  match changes with
  | [] => (t, w, [])
  | change :: rest =>
      let m := {| m_inventoryItemId := c_inventoryItemId change;
                  m_locationId := "gid://shopify/Location/" +:+ location;
                  m_quantity := newValue change |} in
      let '(response, w1) := graphql w m in
      let t' :=
        match response with
        | inr (Some (_ :: _)) | inl _ =>
            {| success := success t; failed := S (failed t) |}
        | inr _ =>
            {| success := S (success t); failed := failed t |}
        end in
      let '(t'', w2, calls) := save_each location rest t' w1 in
      (t'', w2, m :: calls)
  end.

(** [handleSave] up to the toast, with App Bridge loaded; [None] when it
    returns at once because nothing changed. *)
Definition handleSave (location : string) (changes : list StockChange)
    (w : World) : option Toast * World * list BridgeMutation :=
  match changes with
  | [] => (None, w, [])
  | _ =>
      let '(t, w', calls) :=
        save_each location changes {| success := 0; failed := 0 |} w in
      (Some (if bool_decide (0 < failed t)%nat
             then ToastError ("Updated " +:+ pretty (success t)
                              +:+ ", failed " +:+ pretty (failed t))
             else ToastSuccess ("Successfully updated " +:+ pretty (success t)
                                +:+ " items")),
       w', calls)
  end.

End Bridge.

End Page.

(** ** Reading the writer's trace *)
Module Trace.
Import Http Writer.

(** The timers of a trace, in order. *)
Definition delays (tr : list Event) : list Z :=
  omap (λ e, match e with EvDelay ms => Some ms | EvFetch _ => None end) tr.

(** A call answered with a 2xx status and a body that parsed: the
    iteration reaches the end of the loop body. *)
Definition completed (r : FetchResult MutationData) : bool :=
  match r with
  | FetchResponse status (JsonValue _) => ok status
  | _ => false
  end.

End Trace.

(** ** A concrete remote endpoint and concrete requests *)
Module WriterScenario.
Import Http Writer.

(** The world counts the calls it has received.  The endpoint answers by
    the item addressed: a field-level error for [A], a plain success for
    [B], HTTP 429 for [C], no response at all for [D]. *)
Definition remote (w : nat) (c : MutationCall)
    : FetchResult MutationData * nat :=
  let item := q_inventoryItemId (variables c) in
  (if String.eqb item "A" then
     FetchResponse 200
       (JsonValue {| errors := None;
                     userErrors := Some [ {| message := Some "Quantity is invalid" |} ] |})
   else if String.eqb item "C" then
     FetchResponse 429 (JsonRejected (ErrorObject "Unexpected token"))
   else if String.eqb item "D" then
     FetchRejected (ErrorObject "fetch failed")
   else
     FetchResponse 200 (JsonValue {| errors := None; userErrors := Some [] |}),
   S w).

Definition env : Env := {| SHOP := None; SHOPIFY_ACCESS_TOKEN := None |}.

Definition update (item : string) (q : Z) : InventoryUpdate :=
  {| inventoryItemId := item; locationId := "62584946887"; quantity := q |}.

Definition post (l : list InventoryUpdate) : Request :=
  {| method := "POST";
     cookie := Some "shopify_access_token=shpat_1; shopify_shop=panel-company.myshopify.com";
     updates := Some l |}.

Definition call (item : string) (q : Z) : MutationCall :=
  mutation_call "panel-company.myshopify.com" "shpat_1" (update item q).

End WriterScenario.


(** ** Concrete callback requests *)
Module CallbackScenario.
Import Http Callback.

(** A stand-in for the keyed digest; the handler is parametric in it. *)
Definition digest (key msg : string) : string := key +:+ "/" +:+ msg.

Definition token_endpoint (w : nat) (c : ExchangeCall)
    : FetchResult TokenData * nat :=
  (FetchResponse 200 (JsonValue {| access_token := Some "shpat_1" |}), S w).

Definition env : Env :=
  {| SHOPIFY_API_KEY := Some "key"; SHOPIFY_API_SECRET := Some "secret" |}.

Definition params (state : string) : gmap string QueryValue :=
  <["code" := QString "c0de"]>
    (<["shop" := QString "panel-company.myshopify.com"]>
       (<["state" := QString state]> ∅)).

(** The browser returns the cookie of the first step, nonce [9f3a]. *)
Definition callback (q : gmap string QueryValue) : Request :=
  {| query := q; cookie := Some "shopify_nonce=9f3a" |}.

(** A request whose nonce cookie holds [ab=cd] and whose [state] is [ab]. *)
Definition padded : Request :=
  {| query := params "ab"; cookie := Some "shopify_nonce=ab=cd" |}.

(** A request that lost its [code] on the way, with a stale [state]. *)
Definition without_code : Request :=
  callback (delete "code" (params "0000")).

(** A request whose [hmac] parameter is present and empty. *)
Definition empty_hmac : Request :=
  callback (<["hmac" := QString ""]> (params "9f3a")).

End CallbackScenario.

(** ** A concrete catalogue behind the reader *)
Module ReaderScenario.
Import Http Reader.

Definition level (n : string) (available : option Z) : option InventoryItem :=
  Some {| i_id := "gid://shopify/InventoryItem/" +:+ n;
          i_inventoryLevel :=
            Some {| l_id := "gid://shopify/InventoryLevel/" +:+ n;
                    l_available := available |} |}.

Definition no_level (n : string) : option InventoryItem :=
  Some {| i_id := "gid://shopify/InventoryItem/" +:+ n;
          i_inventoryLevel := None |}.

Definition variant (n : string) (sku : option string)
    (item : option InventoryItem) : Variant :=
  {| v_id := "gid://shopify/ProductVariant/" +:+ n;
     v_sku := sku;
     v_title := "Default Title";
     v_inventoryItem := item |}.

(** What the platform answers for Bristol: the first product has one
    variant stocked there and one stocked elsewhere only; the second has an
    oversold variant, a variant without SKU or quantity, and a variant whose
    SKU repeats an earlier one. *)
Definition bristol : list ProductNode :=
  [ {| p_id := "gid://shopify/Product/1"; p_title := "Oak panel";
       p_featuredImage := None;
       p_variants := [ variant "1" (Some "PNL-002") (level "1" (Some 7));
                       variant "2" (Some "PNL-003") (no_level "2") ] |};
    {| p_id := "gid://shopify/Product/2"; p_title := "Ash panel";
       p_featuredImage := Some {| url := Some "https://cdn.example/ash.png" |};
       p_variants := [ variant "3" (Some "PNL-001") (level "3" (Some (-3)));
                       variant "4" None (level "4" None);
                       variant "5" (Some "PNL-001") (level "5" (Some 4)) ] |} ].

Definition remote (w : nat) (c : QueryCall) : FetchResult ProductsData * nat :=
  (FetchResponse 200 (JsonValue {| errors := None; edges := Some bristol |}), S w).

Definition env : Env :=
  {| SHOP := None; SHOPIFY_ACCESS_TOKEN := Some "shpat_1" |}.

(** The deployment after the OAuth handshake alone: the token lives in the
    browser's cookie, the environment variable is not set. *)
Definition env_without_token : Env :=
  {| SHOP := None; SHOPIFY_ACCESS_TOKEN := None |}.

Definition get (locationId : string) : Request :=
  {| method := "GET"; locationId := Some (QString locationId) |}.

Definition run (env : Env) : Response * nat * list QueryCall :=
  handler JS.compare_code_units remote env (get "62584946887") 0%nat.

Definition products_of (r : Response) : list Product :=
  match r with
  | JsonProducts products => products
  | JsonError _ _ _ => []
  end.

End ReaderScenario.

(** ** A concrete edit session *)
Module DiffScenario.
Import Reader Diff.

Definition row (n : string) (stock : Z) : Product :=
  {| id := "gid://shopify/ProductVariant/" +:+ n;
     productId := "gid://shopify/Product/1";
     productTitle := "Oak panel";
     variantTitle := None;
     sku := "PNL-00" +:+ n;
     image := None;
     inventoryItemId := "gid://shopify/InventoryItem/" +:+ n;
     inventoryLevelId := "gid://shopify/InventoryLevel/" +:+ n;
     currentStock := stock |}.

(** What [fetchProducts] stores after a load: every row's stock as text. *)
Definition initialValues (products : list Product) : gmap string string :=
  foldl (λ initialValues product,
           <[id product := JS.toString (currentStock product)]> initialValues)
        ∅ products.

End DiffScenario.

(** ** A comparator that looks at a key only *)
Module SortScenario.

(** Rows compared by their number alone, so that rows with the same
    number are tied. *)
Definition by_number (a b : Z * string) : Z := a.1 - b.1.

Definition rows : list (Z * string) := [(2, "x"); (1, "y"); (1, "z")].

End SortScenario.

(** ** A reply that carries both data and errors *)
Module ReaderErrorScenario.
Import Http Reader.

Definition remote (w : nat) (c : QueryCall) : FetchResult ProductsData * nat :=
  (FetchResponse 200
     (JsonValue {| errors := Some [ {| message := Some "Throttled" |} ];
                   edges := Some ReaderScenario.bristol |}),
   S w).

Definition run : Response * nat * list QueryCall :=
  handler JS.compare_code_units remote ReaderScenario.env
    (ReaderScenario.get "62584946887") 0%nat.

Definition call : QueryCall :=
  {| q_url := "https://panel-company.myshopify.com/admin/api/2024-01/graphql.json";
     q_token := "shpat_1";
     q_location := "gid://shopify/Location/62584946887" |}.

End ReaderErrorScenario.

(** ** A handshake from its first step, and a token endpoint that is down *)
Module HandshakeScenario.
Import Http.

Definition env : Authorize.Env :=
  {| Authorize.SHOP := None;
     Authorize.SHOPIFY_API_KEY := Some "key";
     Authorize.VERCEL_URL := None;
     Authorize.SHOPIFY_APP_URL := None |}.

(** Sixteen bytes from the random source. *)
Definition entropy : list Byte.byte :=
  [ Byte.x9f; Byte.x3a; Byte.x00; Byte.xff; Byte.x10; Byte.x2b; Byte.x7c;
    Byte.xd4; Byte.x01; Byte.x23; Byte.x45; Byte.x67; Byte.x89; Byte.xab;
    Byte.xcd; Byte.xef ].

Definition token_endpoint_down (w : nat) (c : Callback.ExchangeCall)
    : FetchResult Callback.TokenData * nat :=
  (FetchResponse 503 (JsonRejected (ErrorObject "Unexpected token")), S w).

(** A callback that passes both guards. *)
Definition signed : Callback.Request :=
  CallbackScenario.callback
    (<["hmac" := QString
         (CallbackScenario.digest "secret"
            (Callback.message (CallbackScenario.params "9f3a")))]>
       (CallbackScenario.params "9f3a")).

End HandshakeScenario.

(** ** The page's search box and the first page's loader *)
Module Search.
Import Http Reader.

(** [String.prototype.includes]. *)
Fixpoint includes (s sub : string) : bool :=
  String.prefix sub s
  || match s with
     | EmptyString => false
     | String _ s' => includes s' sub
     end.

Section Filter.
(** [String.prototype.toLowerCase]. *)
Variable toLowerCase : string → string.

(** The test of the second page's [filter]: SKU, product title or variant
    title contains the lowercased query. *)
Definition matches (query : string) (product : Product) : bool :=
  includes (toLowerCase (sku product)) query
  || includes (toLowerCase (productTitle product)) query
  || match variantTitle product with
     | Some t => JS.truthy t && includes (toLowerCase t) query
     | None => false
     end.

(** The test of the first page's [filter]: SKU or product title. *)
Definition matches_first (query : string) (product : Product) : bool :=
  includes (toLowerCase (sku product)) query
  || includes (toLowerCase (productTitle product)) query.

(** [filteredProducts] of the second page. *)
Definition filteredProducts (products : list Product) (searchQuery : string)
    : list Product :=
  if negb (JS.truthy (JS.trim searchQuery)) then products
  else List.filter (matches (toLowerCase searchQuery)) products.

(** [filteredProducts] of the first page. *)
Definition filteredProducts_first (products : list Product)
    (searchQuery : string) : list Product :=
  if JS.truthy (JS.trim searchQuery)
  then List.filter (matches_first (toLowerCase searchQuery)) products
  else products.

End Filter.

(** One entry of [inventoryLevel.quantities] as the first page's loader
    reads it. *)
Record QuantityEntry := {
  qe_name : option string;
  qe_quantity : option Z
}.

(** [const available = inventoryLevel.quantities?.find(q => q.name ===
    'available')] and [currentStock: available?.quantity || 0]. *)
Definition stock_of_quantities (quantities : option (list QuantityEntry)) : Z :=
  JS.or_zero
    (qs ← quantities;
     available ← JS.find (λ q, bool_decide (qe_name q = Some "available")) qs;
     qe_quantity available).

End Search.

(** ** A session on the page *)
Module PageScenario.
Import Http Reader Diff Page.

Definition rows : list Product := [DiffScenario.row "1" 5; DiffScenario.row "2" 9].

(** Keystrokes: a digit, a letter (dropped), a longer number, and the first
    field cleared. *)
Definition events : list (string * string) :=
  [ ("gid://shopify/ProductVariant/1", "5");
    ("gid://shopify/ProductVariant/1", "5a");
    ("gid://shopify/ProductVariant/2", "12");
    ("gid://shopify/ProductVariant/1", "") ].

(** App Bridge refuses the first item and throws on the second. *)
Definition bridge (w : nat) (m : BridgeMutation)
    : (Thrown + option (list GqlError)) * nat :=
  (if String.eqb (m_inventoryItemId m) "gid://shopify/InventoryItem/1"
   then inr (Some [ {| message := Some "Quantity is invalid" |} ])
   else if String.eqb (m_inventoryItemId m) "gid://shopify/InventoryItem/2"
   then inl (ErrorObject "Network error")
   else inr (Some []),
   S w).

Definition pending : list StockChange :=
  [ {| c_inventoryItemId := "gid://shopify/InventoryItem/1"; c_sku := "PNL-001";
       oldValue := 5; newValue := Some 6 |};
    {| c_inventoryItemId := "gid://shopify/InventoryItem/2"; c_sku := "PNL-002";
       oldValue := 9; newValue := Some 12 |};
    {| c_inventoryItemId := "gid://shopify/InventoryItem/3"; c_sku := "PNL-003";
       oldValue := 0; newValue := Some 1 |} ].

End PageScenario.

(** * Properties *)

(** ** Numbers as text and back *)
Section NumberText.

Lemma pretty_N_char_digit d :
  (d < 10)%N →
  JS.is_digit (pretty_N_char d) = true
  ∧ JS.digit_value (pretty_N_char d) = Z.of_N d.
Proof.
  intros Hd.
  assert (d = 0 ∨ d = 1 ∨ d = 2 ∨ d = 3 ∨ d = 4 ∨ d = 5 ∨ d = 6 ∨ d = 7
          ∨ d = 8 ∨ d = 9)%N as Hcases by lia.
  repeat (destruct Hcases as [->|Hcases]); try subst d; by vm_compute.
Qed.

(** Reading back the digits written for [x] multiplies what was read so
    far by a power of ten and adds [x]. *)
Lemma read_digits_pretty_N_go x :
  (0 < x)%N →
  ∃ m, ∀ acc s,
    JS.read_digits acc (pretty_N_go x s)
    = JS.read_digits (Some (default 0 acc * m + Z.of_N x)) s.
Proof.
  induction (N.lt_wf_0 x) as [x _ IH]. intros Hx.
  destruct (pretty_N_char_digit (x `mod` 10)) as [Hdig Hval];
    [by apply N.mod_lt|].
  pose proof (N.div_mod x 10 ltac:(done)) as Hdm.
  destruct (decide (x `div` 10 = 0)%N) as [Hq|Hq].
  - exists 10. intros acc s.
    rewrite pretty_N_go_step, Hq, pretty_N_go_0 by done.
    cbn [JS.read_digits]. rewrite Hdig, Hval. rewrite Hq in Hdm.
    do 2 f_equal. lia.
  - destruct (IH (x `div` 10)%N) as [m Hm];
      [by apply N.div_lt|by apply N.neq_0_lt_0|].
    exists (10 * m). intros acc s.
    rewrite pretty_N_go_step, Hm by done.
    cbn [JS.read_digits]. rewrite Hdig, Hval. cbn [default].
    do 2 f_equal. unfold id. lia.
Qed.

Lemma pretty_N_go_head x s :
  (0 < x)%N →
  ∃ c rest, pretty_N_go x s = String c rest ∧ JS.is_digit c = true.
Proof.
  revert s. induction (N.lt_wf_0 x) as [x _ IH]. intros s Hx.
  rewrite pretty_N_go_step by done.
  destruct (decide (x `div` 10 = 0)%N) as [Hq|Hq].
  - rewrite Hq, pretty_N_go_0. eexists _, _. split; [done|].
    by apply pretty_N_char_digit, N.mod_lt.
  - apply IH; [by apply N.div_lt|by apply N.neq_0_lt_0].
Qed.

Lemma parseInt_digit_head c rest :
  JS.is_digit c = true →
  JS.parseInt (String c rest) = JS.read_digits None (String c rest).
Proof.
  destruct c as [[] [] [] [] [] [] [] []]; intros H;
    vm_compute in H; try discriminate; reflexivity.
Qed.

Lemma parseInt_pretty_positive p :
  JS.read_digits None (pretty (N.pos p)) = Some (Z.pos p)
  ∧ JS.parseInt (pretty (N.pos p)) = Some (Z.pos p).
Proof.
  unfold pretty, pretty_N. case_decide; [done|].
  destruct (read_digits_pretty_N_go (N.pos p)) as [m Hm]; [done|].
  destruct (pretty_N_go_head (N.pos p) "") as (c & rest & Heq & Hc); [done|].
  assert (Hread : JS.read_digits None (pretty_N_go (N.pos p) "")
                  = Some (Z.pos p)).
  { rewrite Hm. simpl. done. }
  split; [done|].
  rewrite Heq in *. by rewrite parseInt_digit_head.
Qed.

Lemma parseInt_minus s :
  JS.parseInt (String "-" s) = Z.opp <$> JS.read_digits None s.
Proof. reflexivity. Qed.

(** [parseInt(n.toString(), 10)] is [n]. *)
Lemma parseInt_toString n : JS.parseInt (JS.toString n) = Some n.
Proof.
  unfold JS.toString, pretty, pretty_Z. destruct n as [|p|p].
  - reflexivity.
  - apply parseInt_pretty_positive.
  - destruct (parseInt_pretty_positive p) as [Hr _].
    change (JS.parseInt (String "-" (pretty (N.pos p))) = Some (Z.neg p)).
    rewrite parseInt_minus, Hr. reflexivity.
Qed.

Lemma all_digits_pretty_N_go x : ∀ s,
  JS.all_digits (pretty_N_go x s) = JS.all_digits s.
Proof.
  induction (N.lt_wf_0 x) as [x _ IH]. intros s.
  destruct (decide (x = 0)%N) as [->|Hx]; [done|].
  rewrite pretty_N_go_step by by apply N.neq_0_lt_0.
  rewrite IH by (apply N.div_lt; [by apply N.neq_0_lt_0|done]).
  cbn [JS.all_digits].
  destruct (pretty_N_char_digit (x `mod` 10)) as [-> _]; [by apply N.mod_lt|].
  done.
Qed.

(** The text of a non-negative stock passes the input filter [/^\d*$/]. *)
Lemma all_digits_toString n : 0 ≤ n → JS.all_digits (JS.toString n) = true.
Proof.
  unfold JS.toString, pretty, pretty_Z. destruct n as [|p|p]; [done| |lia].
  intros _. unfold pretty, pretty_positive, pretty, pretty_N.
  case_decide; [done|]. by rewrite all_digits_pretty_N_go.
Qed.

End NumberText.

(** ** Cookies *)
Section CookieFacts.

Lemma split_absent sep s : JS.absent sep s = true → JS.split sep s = [s].
Proof.
  induction s as [|c s IH]; [done|]. cbn [JS.absent JS.split].
  intros [Hc%negb_true_iff Hs]%andb_true_iff. by rewrite Hc, IH.
Qed.

Lemma prefix_nil s : String.prefix "" s = true.
Proof. by destruct s. Qed.

(** The browser sends back [shopify_nonce=<nonce>]; the handler reads
    [<nonce>] out of it, for any nonce free of [;] and [=] (a hex string
    is). *)
Lemma cookie_value_nonce nonce :
  JS.absent ";" nonce = true → JS.absent "=" nonce = true →
  cookie_value "shopify_nonce=" ("shopify_nonce=" +:+ nonce) = Some nonce.
Proof.
  intros Hsemi Heq. unfold cookie_value, cookie_entry.
  rewrite (split_absent ";") by (simpl; exact Hsemi).
  cbn [JS.find]. unfold JS.startsWith, JS.trim.
  assert (String.prefix "shopify_nonce="
            (JS.trimEnd (JS.trimStart ("shopify_nonce=" +:+ nonce))) = true) as ->.
  { simpl. apply prefix_nil. }
  simpl. rewrite (split_absent "=") by done. reflexivity.
Qed.

End CookieFacts.

(** ** [Array.prototype.sort] *)
Section SortFacts.
Context {A : Type} (cmp : A → A → Z).

Lemma insert_Permutation x l : JS.insert cmp x l ≡ₚ x :: l.
Proof.
  induction l as [|y rest IH]; simpl; [done|].
  destruct (cmp x y <=? 0); [done|].
  rewrite IH. apply Permutation_swap.
Qed.

Lemma sort_Permutation l : JS.sort cmp l ≡ₚ l.
Proof.
  induction l as [|x rest IH]; simpl; [done|].
  by rewrite insert_Permutation, IH.
Qed.

Lemma sort_elem_of x l : x ∈ JS.sort cmp l ↔ x ∈ l.
Proof. by rewrite sort_Permutation. Qed.

(** A consistent comparator: any two elements are ordered one way or the
    other, and the order is transitive. *)
Hypothesis cmp_total : ∀ a b, cmp a b ≤ 0 ∨ cmp b a ≤ 0.
Hypothesis cmp_trans : ∀ a b c, cmp a b ≤ 0 → cmp b c ≤ 0 → cmp a c ≤ 0.

Lemma insert_HdRel y x l :
  cmp y x ≤ 0 → HdRel (λ a b, cmp a b ≤ 0) y l →
  HdRel (λ a b, cmp a b ≤ 0) y (JS.insert cmp x l).
Proof.
  intros Hyx Hhd. destruct l as [|z rest]; simpl; [by constructor|].
  destruct (cmp x z <=? 0); constructor; [done|].
  by inversion Hhd.
Qed.

Lemma insert_Sorted x l :
  Sorted (λ a b, cmp a b ≤ 0) l →
  Sorted (λ a b, cmp a b ≤ 0) (JS.insert cmp x l).
Proof.
  induction 1 as [|y rest Hs IH Hhd]; simpl.
  - by repeat constructor.
  - destruct (cmp x y <=? 0) eqn:Hle.
    + apply Z.leb_le in Hle. by repeat constructor.
    + apply Z.leb_gt in Hle. constructor; [done|].
      apply insert_HdRel; [|done].
      destruct (cmp_total x y); [lia|done].
Qed.

Lemma sort_Sorted l : Sorted (λ a b, cmp a b ≤ 0) (JS.sort cmp l).
Proof.
  induction l as [|x rest IH]; simpl; [constructor|].
  by apply insert_Sorted.
Qed.

Lemma tied_trans k x y :
  JS.tied cmp k x = true → JS.tied cmp k y = true → cmp x y ≤ 0.
Proof.
  unfold JS.tied.
  intros [_ Hxk%Z.leb_le]%andb_true_iff [Hky%Z.leb_le _]%andb_true_iff.
  by eapply cmp_trans.
Qed.

(** Insertion keeps every class of tied elements in its order. *)
Lemma insert_stable k x l :
  List.filter (JS.tied cmp k) (JS.insert cmp x l)
  = List.filter (JS.tied cmp k) (x :: l).
Proof.
  induction l as [|y rest IH]; [done|].
  cbn [JS.insert]. destruct (cmp x y <=? 0) eqn:Hle; [done|].
  apply Z.leb_gt in Hle.
  cbn [List.filter] in *. rewrite IH.
  destruct (JS.tied cmp k x) eqn:Hx, (JS.tied cmp k y) eqn:Hy; try done.
  pose proof (tied_trans k x y Hx Hy). lia.
Qed.

Lemma sort_stable k l :
  List.filter (JS.tied cmp k) (JS.sort cmp l) = List.filter (JS.tied cmp k) l.
Proof.
  induction l as [|x rest IH]; [done|].
  cbn [JS.sort]. rewrite insert_stable. cbn [List.filter]. by rewrite IH.
Qed.

End SortFacts.

Lemma compare_code_units_le a b :
  JS.compare_code_units a b ≤ 0 ↔ String_as_OT.cmp a b ≠ Gt.
Proof. unfold JS.compare_code_units. destruct (String_as_OT.cmp a b); split; (done || lia). Qed.

Lemma compare_code_units_total a b :
  JS.compare_code_units a b ≤ 0 ∨ JS.compare_code_units b a ≤ 0.
Proof.
  rewrite !compare_code_units_le, (String_as_OT.cmp_antisym a b).
  destruct (String_as_OT.cmp b a); simpl; auto.
Qed.

Lemma compare_code_units_trans a b c :
  JS.compare_code_units a b ≤ 0 → JS.compare_code_units b c ≤ 0 →
  JS.compare_code_units a c ≤ 0.
Proof.
  rewrite !compare_code_units_le. intros Hab Hbc.
  destruct (String_as_OT.cmp a b) eqn:Eab; [| |done].
  - apply String_as_OT.cmp_eq in Eab. by subst.
  - destruct (String_as_OT.cmp b c) eqn:Ebc; [| |done].
    + apply String_as_OT.cmp_eq in Ebc. subst. by rewrite Eab.
    + apply String_as_OT.cmp_lt in Eab, Ebc.
      pose proof (String_as_OT.lt_trans _ _ _ Eab Ebc) as Hac.
      apply String_as_OT.cmp_lt in Hac. by rewrite Hac.
Qed.

(** ** The inventory writer *)
Section WriterFacts.
Import Http Writer.
Context {World : Type}.
Variable fetch : World → MutationCall → FetchResult MutationData * World.

Abbreviation process := (Writer.process fetch).
Abbreviation responses := (Writer.responses fetch).
Abbreviation handler := (Writer.handler fetch).

Lemma fetches_cons_fetch c tr : fetches (EvFetch c :: tr) = c :: fetches tr.
Proof. reflexivity. Qed.

Lemma fetches_app tr1 tr2 : fetches (tr1 ++ tr2) = fetches tr1 ++ fetches tr2.
Proof. unfold fetches. apply omap_app. Qed.

(** One iteration makes no call of its own after the [fetch], and moves
    the tallies by exactly one. *)
Lemma after_fetch_inr update results response results' evs :
  after_fetch update results response = inr (results', evs) →
  fetches evs = []
  ∧ (success results' + failed results' = S (success results + failed results))%nat
  ∧ error_list results'
    = error_list results ++ option_list (verdict update response)
  ∧ failed results'
    = (failed results + List.length (option_list (verdict update response)))%nat.
Proof.
  unfold after_fetch, verdict.
  destruct response as [e|status body]; [discriminate|].
  destruct (negb (ok status)).
  - intros [= <- <-]; simpl. repeat split; try lia. 
  - destruct body as [e|data]; [discriminate|].
    destruct (has_errors data); intros [= <- <-]; simpl;
      rewrite ?app_nil_r; repeat split; lia.
Qed.

Lemma after_fetch_answered update results response :
  answered response = true →
  ∃ results' evs, after_fetch update results response = inr (results', evs).
Proof.
  unfold answered, after_fetch.
  destruct response as [e|status [e|data]]; try discriminate.
  - intros ->. eauto.
  - intros _. destruct (negb (ok status)); eauto.
Qed.

Lemma after_fetch_inl update results response e :
  after_fetch update results response = inl e → answered response = false.
Proof.
  unfold answered, after_fetch.
  destruct response as [e'|status [e'|data]]; [done | |];
    destruct (negb (ok status)); done.
Qed.

Lemma verdicts_cons update rest response rs :
  omap (uncurry verdict) (zip (update :: rest) (response :: rs))
  = option_list (verdict update response) ++ omap (uncurry verdict) (zip rest rs).
Proof. simpl. by destruct (verdict update response). Qed.

Lemma responses_cons sh tok update rest w :
  responses sh tok (update :: rest) w
  = (fetch w (mutation_call sh tok update)).1
    :: responses sh tok rest (fetch w (mutation_call sh tok update)).2.
Proof. simpl. by destruct (fetch w (mutation_call sh tok update)). Qed.

(** The loop invariant, for a batch that runs to its end. *)
Lemma process_inr sh tok l : ∀ results w res w' tr,
  process sh tok l results w = (inr res, w', tr) →
  fetches tr = mutation_call sh tok <$> l
  ∧ (success res + failed res = success results + failed results + List.length l)%nat
  ∧ error_list res
    = error_list results ++ omap (uncurry verdict) (zip l (responses sh tok l w))
  ∧ failed res
    = (failed results
       + List.length (omap (uncurry verdict) (zip l (responses sh tok l w))))%nat.
Proof.
  induction l as [|update rest IH]; intros results w res w' tr.
  - simpl. intros [= <- <- <-]. rewrite app_nil_r. repeat split; simpl; lia.
  - rewrite responses_cons, verdicts_cons. simpl process.
    destruct (fetch w (mutation_call sh tok update)) as [response w1] eqn:Hf.
    destruct (after_fetch update results response) as [e|[results' evs]] eqn:Ha;
      [discriminate|].
    destruct (process sh tok rest results' w1) as [[out w2] tr'] eqn:Hp.
    intros [= -> <- <-].
    apply after_fetch_inr in Ha as (Hev & Hsum & Herr & Hfail).
    apply IH in Hp as (Hcalls & Hsum' & Herr' & Hfail').
    rewrite fetches_cons_fetch, fetches_app, Hev, Hcalls.
    cbn [fst snd]. rewrite length_app, length_cons.
    split; [done|]. split; [lia|].
    rewrite Herr', Herr, <- app_assoc. split; [done|lia].
Qed.

(** A batch whose calls are all answered runs to its end. *)
Lemma process_total sh tok l : ∀ results w,
  Forall (λ r, answered r = true) (responses sh tok l w) →
  ∃ res w' tr, process sh tok l results w = (inr res, w', tr).
Proof.
  induction l as [|update rest IH]; intros results w; simpl.
  - eauto.
  - destruct (fetch w (mutation_call sh tok update)) as [response w1] eqn:Hf.
    intros [Hr Hrest]%Forall_cons.
    destruct (after_fetch_answered update results response Hr)
      as (results' & evs & ->).
    destruct (IH results' w1 Hrest) as (res & w' & tr & ->). eauto.
Qed.

(** A batch that stops early stopped at a call that threw. *)
Lemma process_inl sh tok l : ∀ results w e w' tr,
  process sh tok l results w = (inl e, w', tr) →
  Exists (λ r, answered r = false) (responses sh tok l w)
  ∧ (List.length (fetches tr) ≤ List.length l)%nat.
Proof.
  induction l as [|update rest IH]; intros results w e w' tr; simpl.
  - discriminate.
  - destruct (fetch w (mutation_call sh tok update)) as [response w1] eqn:Hf.
    destruct (after_fetch update results response) as [e'|[results' evs]] eqn:Ha.
    + intros [= <- <- <-]. apply after_fetch_inl in Ha. split.
      * by apply Exists_cons_hd.
      * simpl. lia.
    + destruct (process sh tok rest results' w1) as [[out w2] tr'] eqn:Hp.
      intros [= -> <- <-]. apply IH in Hp as [Hex Hlen].
      apply after_fetch_inr in Ha as (Hev & _). split.
      * by apply Exists_cons_tl.
      * rewrite fetches_cons_fetch, fetches_app, Hev. simpl. lia.
Qed.

(** A batch that runs to its end had every call answered. *)
Lemma process_inr_answered sh tok l : ∀ results w res w' tr,
  process sh tok l results w = (inr res, w', tr) →
  Forall (λ r, answered r = true) (responses sh tok l w).
Proof.
  induction l as [|update rest IH]; intros results w res w' tr.
  - constructor.
  - rewrite responses_cons. simpl process.
    destruct (fetch w (mutation_call sh tok update)) as [response w1] eqn:Hf.
    destruct (after_fetch update results response) as [e|[results' evs]] eqn:Ha;
      [discriminate|].
    destruct (process sh tok rest results' w1) as [[out w2] tr'] eqn:Hp.
    intros [= -> <- <-]. constructor; [|by eapply IH].
    cbn [fst]. destruct (answered response) eqn:Hans; [done|].
    destruct response as [e|status [e|data]]; simpl in *; try done.
    destruct (negb (ok status)); done.
Qed.

(** Where every call is answered with a 2xx status, the timer follows every
    call. *)
Lemma process_delay_after_ok sh tok l : ∀ results w out w' tr,
  Forall (λ r, ∃ status data, r = FetchResponse status (JsonValue data)
                              ∧ ok status = true) (responses sh tok l w) →
  process sh tok l results w = (out, w', tr) →
  delay_after_every_call tr = true.
Proof.
  induction l as [|update rest IH]; intros results w out w' tr.
  - intros _ [= <- <- <-]. reflexivity.
  - rewrite responses_cons. simpl process.
    destruct (fetch w (mutation_call sh tok update)) as [response w1] eqn:Hf.
    cbn [fst snd].
    intros [(status & data & -> & Hok) Hrest]%Forall_cons.
    unfold after_fetch. rewrite Hok. cbn [negb].
    destruct (process sh tok rest _ w1) as [[out' w2] tr'] eqn:Hp.
    intros [= <- <- <-]. simpl. by eapply IH.
Qed.

Lemma after_fetch_inr_answered update results response results' evs :
  after_fetch update results response = inr (results', evs) →
  answered response = true.
Proof.
  unfold after_fetch, answered.
  destruct response as [e|status [e|data]]; [discriminate| |done].
  by destruct (negb (ok status)).
Qed.

(** A batch that stops early stops at the first call that threw: every
    call before it was answered, and the calls made are those of the
    updates up to that one, with none after it. *)
Lemma process_inl_stop sh tok l : ∀ results w e w' tr,
  process sh tok l results w = (inl e, w', tr) →
  ∃ i r,
    responses sh tok l w !! i = Some r
    ∧ answered r = false
    ∧ Forall (λ r, answered r = true) (take i (responses sh tok l w))
    ∧ fetches tr = mutation_call sh tok <$> take (S i) l.
Proof.
  induction l as [|update rest IH]; intros results w e w' tr.
  - discriminate.
  - rewrite responses_cons. simpl process.
    destruct (fetch w (mutation_call sh tok update)) as [response w1] eqn:Hf.
    cbn [fst snd].
    destruct (after_fetch update results response) as [e'|[results' evs]] eqn:Ha.
    + intros [= <- <- <-]. apply after_fetch_inl in Ha.
      exists 0%nat, response. repeat split; [done|constructor].
    + destruct (process sh tok rest results' w1) as [[out w2] tr'] eqn:Hp.
      intros [= -> <- <-].
      apply IH in Hp as (i & r & Hi & Hr & Hall & Hcalls).
      pose proof (after_fetch_inr_answered _ _ _ _ _ Ha) as Hans.
      apply after_fetch_inr in Ha as (Hev & _).
      exists (S i), r. split; [done|]. split; [done|]. split.
      * cbn [take]. by constructor.
      * rewrite fetches_cons_fetch, fetches_app, Hev, Hcalls. reflexivity.
Qed.

Lemma handler_batch env req w l tok :
  method req = "POST" →
  accessToken (getAuthFromCookies env req) = Some tok →
  JS.truthy tok = true →
  updates req = Some l →
  l ≠ [] →
  handler env req w =
    let '(out, w', tr) :=
      process (shop (getAuthFromCookies env req)) tok l results0 w in
    (match out with
     | inr results => Json200 results
     | inl e => Json500 (thrown_message e "Failed to update inventory")
     end, w', tr).
Proof.
  intros Hm Htok Ht Hu Hne. unfold handler.
  rewrite Hm, String.eqb_refl, Htok, Ht, Hu. cbn [negb].
  destruct l as [|u l]; [done|].
  destruct (process _ _ _ _ _) as [[[e|res] w'] tr]; reflexivity.
Qed.

(** C1 (as amended).  For a POST that carries a credential: an empty update
    list is answered 400 "No updates provided" with no external call made;
    a list of n >= 1 updates whose calls are all answered (no [fetch] or
    [json()] throws) is answered 200 after exactly one call per update, in
    input order, each on the world the previous one left, whatever the
    per-item outcomes were, and the tallies satisfy success + failed = n;
    a batch in which some call throws is answered 500 and ends at the first
    such call: every call before it was answered, and the calls made are
    those of the updates up to and including that one, none after it. *)
Theorem writer_batch_contract env req w l tok resp w' tr :
  method req = "POST" →
  accessToken (getAuthFromCookies env req) = Some tok →
  JS.truthy tok = true →
  updates req = Some l →
  handler env req w = (resp, w', tr) →
  let sh := shop (getAuthFromCookies env req) in
  (l = [] → resp = Json400 "No updates provided" ∧ tr = [] ∧ w' = w)
  ∧ (l ≠ [] →
     Forall (λ r, answered r = true) (responses sh tok l w) →
     ∃ res, resp = Json200 res
            ∧ fetches tr = mutation_call sh tok <$> l
            ∧ (success res + failed res = List.length l)%nat)
  ∧ (l ≠ [] →
     Exists (λ r, answered r = false) (responses sh tok l w) →
     ∃ msg, resp = Json500 msg
            ∧ (List.length (fetches tr) ≤ List.length l)%nat
            ∧ ∃ i r,
                responses sh tok l w !! i = Some r
                ∧ answered r = false
                ∧ Forall (λ r, answered r = true)
                    (take i (responses sh tok l w))
                ∧ fetches tr = mutation_call sh tok <$> take (S i) l).
Proof.
  intros Hm Htok Ht Hu Hh sh. split; [|split].
  - intros ->. unfold handler in Hh.
    rewrite Hm, Htok, Ht, Hu, String.eqb_refl in Hh. cbn [negb] in Hh.
    by injection Hh as <- <- <-.
  - intros Hne Hall. rewrite (handler_batch env req w l tok) in Hh by done.
    destruct (process_total sh tok l results0 w Hall) as (res & w1 & tr1 & Hp).
    fold sh in Hh. rewrite Hp in Hh. injection Hh as <- <- <-.
    apply process_inr in Hp as (Hcalls & Hsum & _).
    exists res. split; [done|]. split; [done|]. simpl in Hsum. lia.
  - intros Hne Hex. rewrite (handler_batch env req w l tok) in Hh by done.
    fold sh in Hh.
    destruct (process sh tok l results0 w) as [[[e|res] w1] tr1] eqn:Hp;
      injection Hh as <- <- <-.
    + pose proof (process_inl_stop _ _ _ _ _ _ _ _ Hp) as Hstop.
      apply process_inl in Hp as [_ Hlen]. eauto.
    + apply process_inr_answered in Hp.
      apply Exists_exists in Hex as (r & Hr & Hfalse).
      rewrite Forall_forall in Hp. apply Hp in Hr. congruence.
Qed.

(** C10.  Whenever the writer answers 200, its list of error messages is
    as long as its failed count: the messages are those of the updates the
    loop classified as failed, one each, in input order, and the updates
    classified as successes contribute none. *)
Theorem writer_errors_match_failed env req w res w' tr :
  handler env req w = (Json200 res, w', tr) →
  List.length (error_list res) = failed res
  ∧ ∃ l tok,
      updates req = Some l
      ∧ accessToken (getAuthFromCookies env req) = Some tok
      ∧ let rs := responses (shop (getAuthFromCookies env req)) tok l w in
        error_list res = omap (uncurry verdict) (zip l rs)
        ∧ (success res + failed res = List.length l)%nat.
Proof.
  unfold handler.
  destruct (negb (String.eqb (method req) "POST")); [discriminate|].
  destruct (accessToken (getAuthFromCookies env req)) as [tok|] eqn:Htok;
    [|discriminate].
  destruct (negb (JS.truthy tok)); [discriminate|].
  destruct (updates req) as [[|u l]|] eqn:Hu; try discriminate.
  destruct (process _ _ _ _ _) as [[[e|res1] w1] tr1] eqn:Hp; [discriminate|].
  intros [= -> <- <-].
  apply process_inr in Hp as (_ & Hsum & Herr & Hfail).
  simpl error_list in Herr. simpl failed in Hfail. simpl in Hsum.
  split.
  - rewrite Herr, Hfail. simpl. lia.
  - exists (u :: l), tok. repeat split; [done|]. simpl. lia.
Qed.

End WriterFacts.

(** The witness of [writer_batch_contract]: three updates, the first
    refused with a field error, the second refused at the HTTP level, the
    third accepted; all three calls are made, in order. *)
Lemma writer_batch_contract_witness :
  ∃ res,
    (Writer.handler WriterScenario.remote WriterScenario.env
       (WriterScenario.post
          [WriterScenario.update "A" 5; WriterScenario.update "C" 1;
           WriterScenario.update "B" 2]) 0%nat).1.1 = Writer.Json200 res
    ∧ (Writer.success res + Writer.failed res = 3)%nat.
Proof.
  set (req := WriterScenario.post _).
  destruct (Writer.handler WriterScenario.remote WriterScenario.env req 0%nat)
    as [[resp w'] tr] eqn:Hh.
  destruct (writer_batch_contract WriterScenario.remote WriterScenario.env req
              0%nat _ "shpat_1" resp w' tr eq_refl eq_refl eq_refl eq_refl Hh)
    as (_ & Hrun & _).
  destruct Hrun as (res & Hres & _ & Hsum).
  - discriminate.
  - vm_compute. repeat constructor.
  - exists res. split; [exact Hres | exact Hsum].
Defined.

(** C1, as the specification words it, fails where a call throws: with two
    updates of which the first gets no response at all, the writer answers
    500 after one call; the second update is never sent and there are no
    tallies. *)
Lemma writer_batch_contract_counterexample :
  let l := [WriterScenario.update "D" 4; WriterScenario.update "B" 2] in
  Writer.handler WriterScenario.remote WriterScenario.env (WriterScenario.post l) 0%nat
  = (Writer.Json500 "fetch failed", 1%nat,
     [Writer.EvFetch (WriterScenario.call "D" 4)])
  ∧ ¬ Writer.batch_contract_as_specified WriterScenario.remote WriterScenario.env
        (WriterScenario.post l) 0%nat l.
Proof.
  split; [vm_compute; reflexivity|].
  intros H. specialize (H eq_refl). vm_compute in H.
  destruct H as [_ H]. destruct H as [H _]; discriminate.
Qed.

(** C2 at the failing input: the first of two updates is answered HTTP 429,
    and the call for the second follows it with no timer in between; only
    the call that was answered 200 is followed by the 100 ms timer. *)
Lemma writer_http_failure_skips_delay :
  let l := [WriterScenario.update "C" 1; WriterScenario.update "B" 2] in
  let out := Writer.handler WriterScenario.remote WriterScenario.env
               (WriterScenario.post l) 0%nat in
  out.1.1 = Writer.Json200
              {| Writer.success := 1; Writer.failed := 1;
                 Writer.error_list := ["API error for C: 429"] |}
  ∧ out.2 = [Writer.EvFetch (WriterScenario.call "C" 1);
             Writer.EvFetch (WriterScenario.call "B" 2);
             Writer.EvDelay 100]
  ∧ Writer.delay_after_every_call out.2 = false.
Proof. vm_compute. repeat split. Qed.

(** The specification's scenario: one update whose call returns a field
    error. *)
Example writer_field_error_scenario :
  (Writer.handler WriterScenario.remote WriterScenario.env
     (WriterScenario.post [WriterScenario.update "A" 5]) 0%nat).1.1
  = Writer.Json200
      {| Writer.success := 0; Writer.failed := 1;
         Writer.error_list := ["Failed A: Quantity is invalid"] |}.
Proof. vm_compute. reflexivity. Qed.

(** The witness of [writer_errors_match_failed]: two failed updates and one
    success give two messages, in input order. *)
Lemma writer_errors_match_failed_witness :
  let res := {| Writer.success := 1; Writer.failed := 2;
                Writer.error_list := ["Failed A: Quantity is invalid";
                                      "API error for C: 429"] |} in
  List.length (Writer.error_list res) = Writer.failed res.
Proof.
  intros res.
  set (req := WriterScenario.post
                [WriterScenario.update "A" 5; WriterScenario.update "C" 1;
                 WriterScenario.update "B" 2]).
  set (out := Writer.handler WriterScenario.remote WriterScenario.env req 0%nat).
  assert (H : out = (Writer.Json200 res, out.1.2, out.2))
    by (vm_compute; reflexivity).
  exact (proj1 (writer_errors_match_failed WriterScenario.remote
                  WriterScenario.env req 0%nat res out.1.2 out.2 H)).
Defined.

(** ** The authorization callback *)
Section CallbackFacts.
Import Http Callback.
Context {World : Type}.
Variable hmac_sha256_hex : string → string → string.
Variable exchange : World → ExchangeCall → FetchResult TokenData * World.

Abbreviation callback_handler := (Callback.handler hmac_sha256_hex exchange).

Lemma strict_ne_false v s :
  strict_ne v s = false → ∃ a, v = QString a ∧ s = Some a.
Proof.
  destruct v as [a|l], s as [b|]; simpl; try discriminate.
  intros H%negb_false_iff%String.eqb_eq. subst. eauto.
Qed.

Lemma strict_ne_true_iff v s :
  strict_ne v s = true ↔ v ≠ QString (default "" s) ∨ s = None.
Proof.
  destruct v as [a|l], s as [b|]; simpl; split; try (intros; reflexivity);
    try (intros _; by auto).
  - intros H%negb_true_iff%String.eqb_neq. left. congruence.
  - intros [H|H]; [|discriminate].
    apply negb_true_iff, String.eqb_neq. congruence.
Qed.

(** The handler calls the token endpoint at most once, and only after all
    four guards have let the request through; a request stopped by a guard
    is refused with no call made. *)
Lemma handler_calls env req w resp w' calls :
  callback_handler env req w = (resp, w', calls) →
  calls = [] ∧ w' = w ∧ rejected resp
  ∨ ∃ code shop state key secret,
      query req !! "code" = Some code ∧ query req !! "shop" = Some shop
      ∧ query req !! "state" = Some state
      ∧ SHOPIFY_API_KEY env = Some key ∧ SHOPIFY_API_SECRET env = Some secret
      ∧ strict_ne state (storedNonce req) = false
      ∧ hmac_invalid hmac_sha256_hex secret req = false
      ∧ exchange_code exchange key secret code shop w = (resp, w', calls).
Proof.
  assert (Hrej : ∀ status error,
            status = 400 ∨ status = 500 ∨ status = 403 →
            (Json status error, w, @nil ExchangeCall) = (resp, w', calls) →
            calls = [] ∧ w' = w ∧ rejected resp).
  { intros status error Hst [= <- <- <-]. repeat split.
    by exists status, error. }
  unfold handler.
  destruct (query req !! "code") as [code|]; [|intros Heq; left; eapply Hrej; [|exact Heq]; auto].
  destruct (query req !! "shop") as [shop|]; [|intros Heq; left; eapply Hrej; [|exact Heq]; auto].
  destruct (query req !! "state") as [state|]; [|intros Heq; left; eapply Hrej; [|exact Heq]; auto].
  destruct (_ || _ || _); [intros Heq; left; eapply Hrej; [|exact Heq]; auto|].
  destruct (SHOPIFY_API_KEY env) as [key|]; [|intros Heq; left; eapply Hrej; [|exact Heq]; auto].
  destruct (SHOPIFY_API_SECRET env) as [secret|]; [|intros Heq; left; eapply Hrej; [|exact Heq]; auto].
  destruct (_ || _); [intros Heq; left; eapply Hrej; [|exact Heq]; auto|].
  destruct (strict_ne state (storedNonce req)) eqn:Hs;
    [intros Heq; left; eapply Hrej; [|exact Heq]; auto|].
  destruct (hmac_invalid hmac_sha256_hex secret req) eqn:Hh;
    [intros Heq; left; eapply Hrej; [|exact Heq]; auto|].
  intros He. right. exists code, shop, state, key, secret. by repeat split.
Qed.

(** Past the first two guards the handler is the nonce guard, the HMAC
    guard and the exchange, in that order. *)
Lemma handler_guards env req w :
  well_formed req = true → configured env = true →
  ∃ code shop state key secret,
    query req !! "code" = Some code ∧ query req !! "shop" = Some shop
    ∧ query req !! "state" = Some state
    ∧ SHOPIFY_API_KEY env = Some key ∧ SHOPIFY_API_SECRET env = Some secret
    ∧ callback_handler env req w =
        if strict_ne state (storedNonce req)
        then (Json 403 "Invalid state parameter", w, [])
        else if hmac_invalid hmac_sha256_hex secret req
        then (Json 403 "Invalid HMAC", w, [])
        else exchange_code exchange key secret code shop w.
Proof.
  unfold well_formed, configured, handler.
  destruct (query req !! "code") as [code|]; [|discriminate].
  destruct (query req !! "shop") as [shop|];
    [|rewrite andb_false_r; discriminate].
  destruct (query req !! "state") as [state|];
    [|rewrite andb_false_r; discriminate].
  intros [[-> ->]%andb_true_iff ->]%andb_true_iff.
  destruct (SHOPIFY_API_KEY env) as [key|]; [|discriminate].
  destruct (SHOPIFY_API_SECRET env) as [secret|];
    [|rewrite andb_false_r; discriminate].
  simpl. intros [-> ->]%andb_true_iff. simpl.
  exists code, shop, state, key, secret. by repeat split.
Qed.

(** The keys of the signed message are the keys of the query, each once,
    in ascending code-unit order. *)
Lemma sorted_keys_spec (queryParams : gmap string QueryValue) :
  Sorted (λ a b, JS.compare_code_units a b ≤ 0) (sorted_keys queryParams)
  ∧ NoDup (sorted_keys queryParams)
  ∧ ∀ key, key ∈ sorted_keys queryParams ↔ is_Some (queryParams !! key).
Proof.
  unfold sorted_keys. split; [|split].
  - apply sort_Sorted, compare_code_units_total.
  - rewrite sort_Permutation. apply NoDup_fst_map_to_list.
  - intros key. rewrite sort_elem_of, list_elem_of_fmap. split.
    + intros ([k v] & -> & Hkv%elem_of_map_to_list). simpl. eauto.
    + intros [v Hv]. exists (key, v). split; [done|].
      by apply elem_of_map_to_list.
Qed.

(** [hmac] itself is not part of the signed message. *)
Lemma sorted_keys_without_hmac (q : gmap string QueryValue) :
  "hmac" ∉ sorted_keys (delete "hmac" q).
Proof.
  intros H. apply sorted_keys_spec in H as [v Hv].
  by rewrite lookup_delete_eq in Hv.
Qed.

(** The nonce guard reads back the nonce the first step stored. *)
Lemma storedNonce_of_cookie q nonce :
  JS.absent ";" nonce = true → JS.absent "=" nonce = true →
  storedNonce {| query := q; cookie := Some ("shopify_nonce=" +:+ nonce) |}
  = Some nonce.
Proof.
  intros Hsemi Heq. unfold storedNonce. cbn [cookie JS.or_str].
  change (JS.truthy ("shopify_nonce=" +:+ nonce)) with true. cbv iota.
  by apply cookie_value_nonce.
Qed.

(** The second piece of an entry cut at ['='] is the first piece of the
    text after the entry's first ['=']. *)
Lemma split_second c :
  JS.split "=" c !! 1%nat = text ← after_equals c; head (JS.split "=" text).
Proof.
  induction c as [|ch r IH]; [done|]. cbn [JS.split after_equals].
  destruct (Ascii.eqb ch "=").
  - cbn. by rewrite head_lookup.
  - destruct (JS.split "=" r) as [|h t]; cbn in *; [by rewrite <- IH|].
    by rewrite <- IH.
Qed.

(** What the handler compares [state] with is the nonce cookie's text up
    to its first ['=']. *)
Lemma storedNonce_text req :
  storedNonce req = text ← nonce_cookie_text req; head (JS.split "=" text).
Proof.
  unfold storedNonce, nonce_cookie_text, cookie_value.
  destruct (cookie_entry _ _) as [c|]; [|done]. apply split_second.
Qed.

Lemma split_head sep s : ∃ a, head (JS.split sep s) = Some a.
Proof.
  destruct s as [|c r]; cbn [JS.split]; [by eexists|].
  destruct (Ascii.eqb c sep); [by eexists|].
  destruct (JS.split sep r); by eexists.
Qed.

Lemma nonce_cookie_text_missing req :
  cookie req = None → nonce_cookie_text req = None.
Proof. unfold nonce_cookie_text. by intros ->. Qed.

(** The signed message, parameter by parameter: the query's entries other
    than [hmac], each once, in ascending code-unit order of the keys, each
    as [key=value], joined by ['&']. *)
Lemma message_layout (q : gmap string QueryValue) :
  ∃ kvs : list (string * QueryValue),
    Sorted (λ a b, JS.compare_code_units a b ≤ 0) kvs.*1
    ∧ NoDup kvs.*1
    ∧ (∀ k v, (k, v) ∈ kvs ↔ k ≠ "hmac" ∧ q !! k = Some v)
    ∧ message (delete "hmac" q)
      = JS.join "&" ((λ kv, kv.1 +:+ "=" +:+ render kv.2) <$> kvs).
Proof.
  set (q' := delete "hmac" q).
  destruct (sorted_keys_spec q') as (Hs & Hnd & Hin).
  set (pair_of := λ k : string, (k, default (QString "") (q' !! k))).
  assert (Hfst : (pair_of <$> sorted_keys q').*1 = sorted_keys q').
  { generalize (sorted_keys q'). clear.
    induction l as [|k l IH]; [done|]. rewrite !fmap_cons. by f_equal. }
  exists (pair_of <$> sorted_keys q'). rewrite Hfst.
  split; [done|]. split; [done|]. split.
  - intros k v. rewrite list_elem_of_fmap. split.
    + intros (k' & Heq & Hk). unfold pair_of in Heq. injection Heq as -> ->.
      apply Hin in Hk as [v Hv]. rewrite Hv. cbn.
      apply lookup_delete_Some in Hv as [Hne Hv]. by split.
    + intros [Hne Hv].
      assert (Hv' : q' !! k = Some v) by (by apply lookup_delete_Some).
      exists k. split; [unfold pair_of; by rewrite Hv'|].
      apply Hin. by exists v.
  - unfold message. rewrite <- list_fmap_compose.
    f_equal. apply Forall_fmap_ext_1, Forall_forall.
    intros k [v Hv]%Hin. unfold pair_of. cbn. by rewrite Hv.
Qed.

(** C5 (as amended).  Whatever the request and the configuration, a
    callback whose [state] is not the nonce the handler reads from the
    [shopify_nonce] cookie never reaches the token endpoint: no call is
    made, the world is untouched and the answer is a refusal; for a request
    that carries [code], [shop] and [state], under configured credentials,
    it is 403 "Invalid state parameter".  This covers a request without a
    [Cookie] header or without that cookie; a header that is the one cookie
    [shopify_nonce=<nonce>], the nonce free of [;] and [=], with a [state]
    other than the nonce; and, for any header, a [state] other than the
    cookie's text up to its first ['='], which is the whole text when it
    holds no ['=']. *)
Theorem callback_state_mismatch env req w resp w' calls :
  callback_handler env req w = (resp, w', calls) →
  let refused :=
    calls = [] ∧ w' = w ∧ rejected resp
    ∧ (well_formed req = true → configured env = true →
       resp = Json 403 "Invalid state parameter") in
  (¬ state_matches req → refused)
  ∧ (cookie req = None → refused)
  ∧ (nonce_cookie_text req = None → refused)
  ∧ (∀ nonce,
       cookie req = Some ("shopify_nonce=" +:+ nonce) →
       JS.absent ";" nonce = true → JS.absent "=" nonce = true →
       query req !! "state" ≠ Some (QString nonce) → refused)
  ∧ (∀ text,
       nonce_cookie_text req = Some text →
       ∃ nonce,
         head (JS.split "=" text) = Some nonce
         ∧ (JS.absent "=" text = true → nonce = text)
         ∧ (query req !! "state" ≠ Some (QString nonce) → refused)).
Proof.
  intros Hh refused.
  assert (Hgen : ¬ state_matches req → refused).
  { intros Hne.
    assert (Hstrict : ∀ state, query req !! "state" = Some state →
                               strict_ne state (storedNonce req) = true).
    { intros state Hst. destruct (strict_ne _ _) eqn:Hs; [done|].
      apply strict_ne_false in Hs as (a & -> & Hn).
      destruct Hne. by exists a. }
    assert (Hcalls : calls = [] ∧ w' = w ∧ rejected resp).
    { destruct (handler_calls _ _ _ _ _ _ Hh)
        as [?|(code & shop & state & key & secret & _ & _ & Hst & _ & _ & Hs & _)];
        [done|].
      rewrite (Hstrict _ Hst) in Hs. discriminate. }
    destruct Hcalls as (-> & -> & Hrej). repeat split; [done|].
    intros Hwf Hcf.
    destruct (handler_guards env req w Hwf Hcf)
      as (code & shop & state & key & secret & _ & _ & Hst & _ & _ & Heq).
    rewrite Heq, (Hstrict _ Hst) in Hh. by injection Hh as <-. }
  assert (Hnone : nonce_cookie_text req = None → refused).
  { intros Hn. apply Hgen. intros (nonce & _ & Hs).
    rewrite storedNonce_text, Hn in Hs. discriminate. }
  split; [done|]. split; [|split; [done|split]].
  - intros Hc. by apply Hnone, nonce_cookie_text_missing.
  - intros nonce Hc Hsemi Heq Hst. apply Hgen. intros (nonce' & Hst' & Hs).
    destruct req as [q c]. cbn [cookie query] in *. subst c.
    rewrite storedNonce_of_cookie in Hs by done. congruence.
  - intros text Ht. destruct (split_head "=" text) as [nonce Hhead].
    exists nonce. split; [done|]. split.
    + intros Habs. rewrite split_absent in Hhead by done. by injection Hhead.
    + intros Hst. apply Hgen. intros (nonce' & Hst' & Hs).
      rewrite storedNonce_text, Ht in Hs. cbn in Hs. congruence.
Qed.

(** C6 (as amended).  The signed message of a callback is made of the
    query's entries other than [hmac], each once, in ascending code-unit
    order of the keys, each as [key=value], joined by ['&'].  A callback
    whose [hmac] parameter is not empty and is not the hex HMAC-SHA256 of
    that message under the API secret is refused and never reaches the
    token endpoint; for a request that carries [code], [shop] and [state],
    under configured credentials, the answer is 403, and it is
    "Invalid HMAC" when the nonce guard was passed.  An [hmac] equal to
    that digest lets such a request, its state matching, go on to the token
    exchange; so does an [hmac] that is absent or empty, for which the
    guard is not evaluated. *)
Theorem callback_hmac_guard env req w resp w' calls :
  callback_handler env req w = (resp, w', calls) →
  (∃ kvs : list (string * QueryValue),
     Sorted (λ a b, JS.compare_code_units a b ≤ 0) kvs.*1
     ∧ NoDup kvs.*1
     ∧ (∀ k v, (k, v) ∈ kvs ↔ k ≠ "hmac" ∧ query req !! k = Some v)
     ∧ message (delete "hmac" (query req))
       = JS.join "&" ((λ kv, kv.1 +:+ "=" +:+ render kv.2) <$> kvs))
  ∧ (∀ supplied,
       query req !! "hmac" = Some supplied →
       truthy (Some supplied) = true →
       (∀ secret, SHOPIFY_API_SECRET env = Some secret →
          supplied ≠ QString (hmac_sha256_hex secret
                                (message (delete "hmac" (query req))))) →
       calls = [] ∧ w' = w ∧ rejected resp
       ∧ (well_formed req = true → configured env = true →
          ∃ error, resp = Json 403 error
                   ∧ (state_matches req → error = "Invalid HMAC")))
  ∧ (∀ secret,
       SHOPIFY_API_SECRET env = Some secret →
       query req !! "hmac"
       = Some (QString (hmac_sha256_hex secret
                          (message (delete "hmac" (query req))))) →
       well_formed req = true → configured env = true → state_matches req →
       List.length calls = 1%nat)
  ∧ (truthy (query req !! "hmac") = false →
     well_formed req = true → configured env = true → state_matches req →
     List.length calls = 1%nat).
Proof.
  intros Hh.
  assert (Hpass : ∀ secret,
            SHOPIFY_API_SECRET env = Some secret →
            hmac_invalid hmac_sha256_hex secret req = false →
            well_formed req = true → configured env = true →
            state_matches req → List.length calls = 1%nat).
  { intros secret0 Hsec0 Hi Hwf Hcf (nonce & Hst' & Hn).
    destruct (handler_guards env req w Hwf Hcf)
      as (code & shop & state & key & secret & _ & _ & Hst & _ & Hsec & Heq).
    rewrite Heq in Hh. rewrite Hst' in Hst. injection Hst as <-.
    rewrite Hn in Hh. simpl in Hh. rewrite String.eqb_refl in Hh. simpl in Hh.
    rewrite Hsec0 in Hsec. injection Hsec as <-.
    rewrite Hi in Hh. unfold exchange_code in Hh.
    destruct (exchange w _) as [r w1]. by injection Hh as <- <- <-. }
  split; [apply message_layout|]. split; [|split].
  - intros supplied Hq Ht Hne.
    assert (Hinv : ∀ secret, SHOPIFY_API_SECRET env = Some secret →
                             hmac_invalid hmac_sha256_hex secret req = true).
    { intros secret Hsec. unfold hmac_invalid. rewrite Hq, Ht.
      apply strict_ne_true_iff. left. by apply Hne. }
    assert (Hcalls : calls = [] ∧ w' = w ∧ rejected resp).
    { destruct (handler_calls _ _ _ _ _ _ Hh)
        as [?|(code & shop & state & key & secret & _ & _ & _ & _ & Hsec & _ & Hi & _)];
        [done|].
      rewrite (Hinv _ Hsec) in Hi. discriminate. }
    destruct Hcalls as (-> & -> & Hrej). repeat split; [done|].
    intros Hwf Hcf.
    destruct (handler_guards env req w Hwf Hcf)
      as (code & shop & state & key & secret & _ & _ & Hst & _ & Hsec & Heq).
    rewrite Heq, (Hinv _ Hsec) in Hh.
    destruct (strict_ne state (storedNonce req)) eqn:Hs; injection Hh as <-.
    + eexists. split; [done|]. intros (nonce & Hst' & Hn).
      rewrite Hst' in Hst. injection Hst as <-. rewrite Hn in Hs.
      simpl in Hs. by rewrite String.eqb_refl in Hs.
    + eauto.
  - intros secret Hsec Hq. apply (Hpass secret Hsec).
    unfold hmac_invalid. rewrite Hq.
    destruct (truthy _); [|done]. cbn. by rewrite String.eqb_refl.
  - intros Ht Hwf Hcf Hm.
    assert (Hcf' := Hcf). unfold configured in Hcf'.
    destruct (SHOPIFY_API_SECRET env) as [secret|] eqn:Hsec;
      [|by rewrite andb_false_r in Hcf'].
    apply (Hpass secret eq_refl); try done.
    unfold hmac_invalid. destruct (query req !! "hmac"); [|done].
    by rewrite Ht.
Qed.

End CallbackFacts.

(** The witness of [callback_state_mismatch]: the cookie holds [9f3a], the
    callback comes back with [state=0000]. *)
Lemma callback_state_mismatch_witness :
  Callback.handler CallbackScenario.digest CallbackScenario.token_endpoint
    CallbackScenario.env
    (CallbackScenario.callback (CallbackScenario.params "0000")) 0%nat
  = (Callback.Json 403 "Invalid state parameter", 0%nat, []).
Proof.
  set (req := CallbackScenario.callback _).
  destruct (Callback.handler CallbackScenario.digest
              CallbackScenario.token_endpoint CallbackScenario.env req 0%nat)
    as [[resp w'] calls] eqn:Hh.
  destruct (callback_state_mismatch CallbackScenario.digest
              CallbackScenario.token_endpoint CallbackScenario.env req 0%nat
              resp w' calls Hh) as (_ & _ & _ & Hheader & _).
  destruct (Hheader "9f3a") as (-> & -> & _ & Hresp).
  - reflexivity.
  - reflexivity.
  - reflexivity.
  - vm_compute. discriminate.
  - by rewrite Hresp.
Defined.

(** Two receivable requests the nonce guard, as specified, would answer
    403 without a call.  With the cookie [shopify_nonce=ab=cd] and
    [state=ab] the state differs from the stored nonce, yet the handler
    reads [ab] out of the cookie, lets the request through and exchanges
    the code.  A request without [code] and with a stale state is answered
    400, not 403. *)
Lemma callback_state_mismatch_counterexample :
  Callback.nonce_cookie_text CallbackScenario.padded = Some "ab=cd"
  ∧ Callback.query CallbackScenario.padded !! "state" = Some (Http.QString "ab")
  ∧ Callback.handler CallbackScenario.digest CallbackScenario.token_endpoint
      CallbackScenario.env CallbackScenario.padded 0%nat
    = (Callback.Redirect "/"
         [ "shopify_access_token=shpat_1; Path=/; HttpOnly; Secure; SameSite=Lax; Max-Age=31536000";
           "shopify_shop=panel-company.myshopify.com; Path=/; HttpOnly; Secure; SameSite=Lax; Max-Age=31536000";
           "shopify_nonce=; Path=/; HttpOnly; Secure; SameSite=Lax; Max-Age=0" ],
       1%nat,
       [ {| Callback.url := "https://panel-company.myshopify.com/admin/oauth/access_token";
            Callback.client_id := "key";
            Callback.client_secret := "secret";
            Callback.code := Http.QString "c0de" |} ])
  ∧ ¬ Callback.state_guard_as_specified CallbackScenario.digest
        CallbackScenario.token_endpoint CallbackScenario.env
        CallbackScenario.padded 0%nat
  ∧ Callback.handler CallbackScenario.digest CallbackScenario.token_endpoint
      CallbackScenario.env CallbackScenario.without_code 0%nat
    = (Callback.Json 400 "Missing required parameters", 0%nat, [])
  ∧ ¬ Callback.state_guard_as_specified CallbackScenario.digest
        CallbackScenario.token_endpoint CallbackScenario.env
        CallbackScenario.without_code 0%nat.
Proof.
  split; [vm_compute; reflexivity|]. split; [vm_compute; reflexivity|].
  split; [vm_compute; reflexivity|]. split; [|split; [vm_compute; reflexivity|]].
  - intros H. unfold Callback.state_guard_as_specified in H.
    assert (Hne : Callback.query CallbackScenario.padded !! "state"
                  ≠ Http.QString <$> Callback.nonce_cookie_text CallbackScenario.padded)
      by (vm_compute; discriminate).
    specialize (H Hne). vm_compute in H. destruct H; discriminate.
  - intros H. unfold Callback.state_guard_as_specified in H.
    assert (Hne : Callback.query CallbackScenario.without_code !! "state"
                  ≠ Http.QString <$> Callback.nonce_cookie_text CallbackScenario.without_code)
      by (vm_compute; discriminate).
    specialize (H Hne). vm_compute in H. destruct H; discriminate.
Qed.

(** The witness of [callback_hmac_guard]: the nonce matches, the [hmac]
    parameter is not the digest of the other three parameters. *)
Lemma callback_hmac_guard_witness :
  Callback.handler CallbackScenario.digest CallbackScenario.token_endpoint
    CallbackScenario.env
    (CallbackScenario.callback
       (<["hmac" := Http.QString "tampered"]> (CallbackScenario.params "9f3a")))
    0%nat
  = (Callback.Json 403 "Invalid HMAC", 0%nat, []).
Proof.
  set (req := CallbackScenario.callback _).
  destruct (Callback.handler CallbackScenario.digest
              CallbackScenario.token_endpoint CallbackScenario.env req 0%nat)
    as [[resp w'] calls] eqn:Hh.
  destruct (callback_hmac_guard CallbackScenario.digest
              CallbackScenario.token_endpoint CallbackScenario.env req 0%nat
              resp w' calls Hh) as (_ & Hguard & _).
  destruct (Hguard (Http.QString "tampered")) as (-> & -> & _ & Hresp).
  - vm_compute. reflexivity.
  - reflexivity.
  - intros secret [= <-]. vm_compute. discriminate.
  - destruct Hresp as (error & -> & Herr); [reflexivity..|].
    rewrite Herr; [reflexivity|].
    exists "9f3a". split; vm_compute; reflexivity.
Defined.

(** The message signed for the scenario's three parameters. *)
Example message_of_params :
  Callback.message
    (delete "hmac"
       (<["hmac" := Http.QString "tampered"]> (CallbackScenario.params "9f3a")))
  = "code=c0de&shop=panel-company.myshopify.com&state=9f3a".
Proof. vm_compute. reflexivity. Qed.

(** A request the HMAC guard, as specified, would answer 403 without a
    call: its [hmac] parameter is present and empty, which is not the
    digest of the remaining parameters, yet the guard is skipped and the
    code is exchanged. *)
Lemma callback_hmac_guard_counterexample :
  Callback.query CallbackScenario.empty_hmac !! "hmac" = Some (Http.QString "")
  ∧ CallbackScenario.digest "secret"
      (Callback.message (delete "hmac" (Callback.query CallbackScenario.empty_hmac)))
    = "secret/code=c0de&shop=panel-company.myshopify.com&state=9f3a"
  ∧ Callback.handler CallbackScenario.digest CallbackScenario.token_endpoint
      CallbackScenario.env CallbackScenario.empty_hmac 0%nat
    = (Callback.Redirect "/"
         [ "shopify_access_token=shpat_1; Path=/; HttpOnly; Secure; SameSite=Lax; Max-Age=31536000";
           "shopify_shop=panel-company.myshopify.com; Path=/; HttpOnly; Secure; SameSite=Lax; Max-Age=31536000";
           "shopify_nonce=; Path=/; HttpOnly; Secure; SameSite=Lax; Max-Age=0" ],
       1%nat,
       [ {| Callback.url := "https://panel-company.myshopify.com/admin/oauth/access_token";
            Callback.client_id := "key";
            Callback.client_secret := "secret";
            Callback.code := Http.QString "c0de" |} ])
  ∧ ¬ Callback.hmac_guard_as_specified CallbackScenario.digest
        CallbackScenario.token_endpoint CallbackScenario.env
        CallbackScenario.empty_hmac 0%nat.
Proof.
  split; [vm_compute; reflexivity|]. split; [vm_compute; reflexivity|].
  split; [vm_compute; reflexivity|].
  intros H.
  specialize (H (Http.QString "") "secret").
  assert (Hq : Callback.query CallbackScenario.empty_hmac !! "hmac"
               = Some (Http.QString "")) by (vm_compute; reflexivity).
  assert (Hne : Http.QString ""
                ≠ Http.QString
                    (CallbackScenario.digest "secret"
                       (Callback.message
                          (delete "hmac" (Callback.query CallbackScenario.empty_hmac)))))
    by (vm_compute; discriminate).
  specialize (H Hq eq_refl Hne). vm_compute in H. destruct H; discriminate.
Qed.

(** ** The inventory reader *)
Section ReaderFacts.
Import Http Reader.
Context {World : Type}.
Variable localeCompare : string → string → Z.
Variable fetch : World → QueryCall → FetchResult ProductsData * World.

Abbreviation reader_handler := (Reader.handler localeCompare fetch).
Abbreviation by_sku := (λ a b : Product, localeCompare (sku a) (sku b)).

Lemma format_variants_foldl product variants : ∀ products,
  foldl (λ products variant,
           match format_variant product variant with
           | Some r => products ++ [r]
           | None => products
           end) products variants
  = products ++ omap (format_variant product) variants.
Proof.
  induction variants as [|variant rest IH]; intros products; simpl.
  - by rewrite app_nil_r.
  - rewrite IH. destruct (format_variant product variant); [|done].
    by rewrite <- app_assoc.
Qed.

Lemma format_products_foldl edges : ∀ products,
  foldl (λ products product,
           foldl (λ products variant,
                    match format_variant product variant with
                    | Some r => products ++ [r]
                    | None => products
                    end)
                 products (p_variants product))
        products edges
  = products
    ++ (edges ≫= λ product, omap (format_variant product) (p_variants product)).
Proof.
  induction edges as [|product rest IH]; intros products.
  - by rewrite app_nil_r.
  - cbn [foldl]. rewrite IH, format_variants_foldl.
    by rewrite <- app_assoc.
Qed.

(** The two loops collect, product by product and variant by variant, the
    records of the variants that have a level. *)
Lemma format_bind edges :
  format edges
  = edges ≫= λ product, omap (format_variant product) (p_variants product).
Proof. unfold format. by rewrite format_products_foldl. Qed.

Lemma format_variant_Some product variant r :
  format_variant product variant = Some r ↔
  ∃ item inventoryLevel,
    v_inventoryItem variant = Some item
    ∧ i_inventoryLevel item = Some inventoryLevel
    ∧ r = record product variant item inventoryLevel.
Proof.
  unfold format_variant. split.
  - destruct (v_inventoryItem variant) as [item|]; [|done].
    destruct (i_inventoryLevel item) as [inventoryLevel|] eqn:Hl; [|done].
    intros [= <-]. eauto.
  - intros (item & inventoryLevel & -> & -> & ->). done.
Qed.

Lemma elem_of_format edges r : r ∈ format edges ↔ stocked edges r.
Proof.
  rewrite format_bind, list_elem_of_bind. unfold stocked. split.
  - intros (product & Hr & Hp).
    apply list_elem_of_omap in Hr as (variant & Hv & Hf).
    apply format_variant_Some in Hf as (item & inventoryLevel & ? & ? & ?).
    by exists product, variant, item, inventoryLevel.
  - intros (product & variant & item & inventoryLevel & Hp & Hv & Hi & Hl & ->).
    exists product. split; [|done].
    apply list_elem_of_omap. exists variant. split; [done|].
    apply format_variant_Some. eauto.
Qed.

(** A 200 answer is the sorted formatting of the edges the platform sent
    in reply to the one query made. *)
Lemma handler_products env req w products w' calls :
  reader_handler env req w = (JsonProducts products, w', calls) →
  ∃ c status data es,
    calls = [c]
    ∧ fetch w c = (FetchResponse status (JsonValue data), w')
    ∧ edges data = Some es
    ∧ products = JS.sort by_sku (format es).
Proof.
  unfold handler.
  destruct (negb (String.eqb (method req) "GET")); [discriminate|].
  destruct (locationId req) as [[loc|]|]; try discriminate.
  destruct (negb (JS.truthy loc)); [discriminate|].
  destruct (negb (JS.truthy_opt _)); [discriminate|].
  match goal with |- context [fetch w ?c] => set (call := c) end.
  destruct (fetch w call) as [response w1] eqn:Hf.
  unfold after_fetch.
  destruct response as [e|status [e|data]]; try discriminate.
  - destruct (negb (ok status)); discriminate.
  - destruct (negb (ok status)); [discriminate|].
    destruct (errors data); [discriminate|].
    destruct (edges data) as [es|] eqn:He; [|discriminate].
    intros [= <- <- <-]. by exists call, status, data, es.
Qed.

(** The one query behind a 200 answer asks for the location the request
    names. *)
Lemma handler_products_call env req w products w' calls :
  reader_handler env req w = (JsonProducts products, w', calls) →
  ∃ c status data es loc,
    calls = [c]
    ∧ locationId req = Some (QString loc)
    ∧ q_location c = "gid://shopify/Location/" +:+ loc
    ∧ fetch w c = (FetchResponse status (JsonValue data), w')
    ∧ edges data = Some es
    ∧ products = JS.sort by_sku (format es).
Proof.
  unfold handler.
  destruct (negb (String.eqb (method req) "GET")); [discriminate|].
  destruct (locationId req) as [[loc|]|]; try discriminate.
  destruct (negb (JS.truthy loc)); [discriminate|].
  destruct (negb (JS.truthy_opt _)); [discriminate|].
  match goal with |- context [fetch w ?c] => set (call := c) end.
  destruct (fetch w call) as [response w1] eqn:Hf.
  unfold after_fetch.
  destruct response as [e|status [e|data]]; try discriminate.
  - destruct (negb (ok status)); discriminate.
  - destruct (negb (ok status)); [discriminate|].
    destruct (errors data); [discriminate|].
    destruct (edges data) as [es|] eqn:He; [|discriminate].
    intros [= <- <- <-]. by exists call, status, data, es, loc.
Qed.

(** Without an access token in the environment the reader answers 500,
    whatever the request's cookies are: it does not read them. *)
Lemma handler_without_token env loc w :
  JS.truthy loc = true →
  JS.truthy_opt (SHOPIFY_ACCESS_TOKEN env) = false →
  reader_handler env {| method := "GET"; locationId := Some (QString loc) |} w
  = (JsonError 500 "Access token not configured" false, w, []).
Proof. intros Hloc Htok. unfold handler. simpl. by rewrite Hloc, Htok. Qed.

(** C7.  In a 200 answer of the reader, every record was built from a
    variant that has an inventory level in the platform's reply to the one
    query made, the query for the location the request names, and every
    such variant has its record; so a variant id whose variants in that
    reply all lack a level is the id of no record. *)
Theorem reader_excludes_unstocked env req w products w' calls :
  reader_handler env req w = (JsonProducts products, w', calls) →
  ∃ c status data es loc,
    calls = [c]
    ∧ locationId req = Some (QString loc)
    ∧ q_location c = "gid://shopify/Location/" +:+ loc
    ∧ fetch w c = (FetchResponse status (JsonValue data), w')
    ∧ edges data = Some es
    ∧ (∀ r, r ∈ products ↔ stocked es r)
    ∧ (∀ product variant, unstocked variant → format_variant product variant = None)
    ∧ (∀ x,
         (∀ product variant, product ∈ es → variant ∈ p_variants product →
                             v_id variant = x → unstocked variant) →
         ∀ r, r ∈ products → id r ≠ x).
Proof.
  intros (c & status & data & es & loc & Hc & Hloc & Hq & Hf & He & ->)
    %handler_products_call.
  exists c, status, data, es, loc.
  split; [done|]. split; [done|]. split; [done|]. split; [done|].
  split; [done|].
  assert (Hin : ∀ r, r ∈ JS.sort by_sku (format es) ↔ stocked es r).
  { intros r. by rewrite sort_elem_of, elem_of_format. }
  split; [done|]. split.
  - intros product variant Hun. unfold format_variant.
    destruct (v_inventoryItem variant) as [item|] eqn:Hi; [|done].
    by rewrite (Hun item).
  - intros x Hx r Hr%Hin Hid.
    destruct Hr as (product & variant & item & inventoryLevel
                    & Hp & Hv & Hi & Hl & ->).
    simpl in Hid. specialize (Hx product variant Hp Hv Hid item Hi). congruence.
Qed.

Lemma Sorted_adjacent {B} (R : B → B → Prop) (l : list B) :
  Sorted R l →
  ∀ i a b, l !! i = Some a → l !! S i = Some b → R a b.
Proof.
  induction 1 as [|x rest Hs IH Hhd]; intros i a b Ha Hb; [done|].
  destruct i as [|i]; simpl in *.
  - injection Ha as <-. destruct Hhd as [|y rest' Hxy]; [done|].
    simpl in Hb. by injection Hb as <-.
  - by eapply IH.
Qed.

(** C8.  With [localeCompare] a consistent comparator, the list of a 200
    answer is ordered by SKU along every adjacent pair, it is a rearrangement
    of the records formatted from the reply, and records whose SKUs compare
    equal stand in the order the reply listed them. *)
Theorem reader_sorted_by_sku env req w products w' calls :
  (∀ a b, localeCompare a b ≤ 0 ∨ localeCompare b a ≤ 0) →
  (∀ a b c, localeCompare a b ≤ 0 → localeCompare b c ≤ 0 →
            localeCompare a c ≤ 0) →
  reader_handler env req w = (JsonProducts products, w', calls) →
  Sorted (λ a b, localeCompare (sku a) (sku b) ≤ 0) products
  ∧ (∀ i a b, products !! i = Some a → products !! S i = Some b →
              localeCompare (sku a) (sku b) ≤ 0)
  ∧ ∃ c status data es,
      fetch w c = (FetchResponse status (JsonValue data), w')
      ∧ edges data = Some es
      ∧ products ≡ₚ format es
      ∧ ∀ k, List.filter (JS.tied by_sku k) products
             = List.filter (JS.tied by_sku k) (format es).
Proof.
  intros Htotal Htrans (c & status & data & es & _ & Hf & He & ->)%handler_products.
  assert (Hsorted : Sorted (λ a b, by_sku a b ≤ 0) (JS.sort by_sku (format es))).
  { apply sort_Sorted. intros a b. apply Htotal. }
  split; [exact Hsorted|]. split.
  - by apply (Sorted_adjacent (λ a b, by_sku a b ≤ 0)).
  - exists c, status, data, es. split; [done|]. split; [done|].
    split; [apply sort_Permutation|].
    intros k. apply sort_stable. intros a b d. apply Htrans.
Qed.

Lemma elem_of_levels es product variant item inventoryLevel :
  product ∈ es → variant ∈ p_variants product →
  v_inventoryItem variant = Some item →
  i_inventoryLevel item = Some inventoryLevel →
  inventoryLevel ∈ levels es.
Proof.
  intros Hp Hv Hi Hl. unfold levels. apply list_elem_of_bind.
  exists product. split; [|done].
  apply list_elem_of_omap. exists variant. split; [done|].
  by rewrite Hi.
Qed.

(** C9 (as amended).  In a 200 answer every record carries the quantity
    the platform reported for its own inventory level - the level of the
    variant it was built from, whose id it also carries - with [null] read
    as 0; so where the reply reports no negative quantity, every
    [currentStock] is non-negative. *)
Theorem reader_stock_of_level env req w products w' calls :
  reader_handler env req w = (JsonProducts products, w', calls) →
  ∃ c status data es,
    calls = [c]
    ∧ fetch w c = (FetchResponse status (JsonValue data), w')
    ∧ edges data = Some es
    ∧ (∀ r, r ∈ products →
            ∃ product variant item inventoryLevel,
              product ∈ es ∧ variant ∈ p_variants product
              ∧ v_inventoryItem variant = Some item
              ∧ i_inventoryLevel item = Some inventoryLevel
              ∧ inventoryLevel ∈ levels es
              ∧ id r = v_id variant
              ∧ inventoryItemId r = i_id item
              ∧ inventoryLevelId r = l_id inventoryLevel
              ∧ currentStock r = default 0 (l_available inventoryLevel))
    ∧ ((∀ inventoryLevel n, inventoryLevel ∈ levels es →
                            l_available inventoryLevel = Some n → 0 ≤ n) →
       ∀ r, r ∈ products → 0 ≤ currentStock r).
Proof.
  intros (c & status & data & es & Hc & Hf & He & ->)%handler_products.
  exists c, status, data, es. split; [done|]. split; [done|]. split; [done|].
  assert (Hlevel : ∀ r, r ∈ JS.sort by_sku (format es) →
            ∃ product variant item inventoryLevel,
              product ∈ es ∧ variant ∈ p_variants product
              ∧ v_inventoryItem variant = Some item
              ∧ i_inventoryLevel item = Some inventoryLevel
              ∧ inventoryLevel ∈ levels es
              ∧ id r = v_id variant
              ∧ inventoryItemId r = i_id item
              ∧ inventoryLevelId r = l_id inventoryLevel
              ∧ currentStock r = default 0 (l_available inventoryLevel)).
  { intros r Hr. rewrite sort_elem_of, elem_of_format in Hr.
    destruct Hr as (product & variant & item & inventoryLevel
                    & Hp & Hv & Hi & Hl & ->).
    exists product, variant, item, inventoryLevel.
    split; [done|]. split; [done|]. split; [done|]. split; [done|].
    split; [by eapply elem_of_levels|].
    split; [done|]. split; [done|]. split; [done|].
    simpl. unfold JS.or_zero.
    destruct (l_available inventoryLevel) as [n|]; [|done].
    simpl. destruct (Z.eqb_spec n 0); congruence. }
  split; [done|].
  intros Hpos r (product & variant & item & inventoryLevel
                 & _ & _ & _ & _ & Hin & _ & _ & _ & ->)%Hlevel.
  destruct (l_available inventoryLevel) as [n|] eqn:Ha; simpl; [|lia].
  by eapply Hpos.
Qed.

End ReaderFacts.

(** C3 at the failing input.  A GET with a valid [locationId], in a
    deployment whose access token is not in the environment, is answered
    500 "Access token not configured" without [needsAuth] and without any
    call; the writer, asked in the same situation, answers 401 with
    [needsAuth: true]. *)
Lemma reader_without_credential_answers_500 :
  ReaderScenario.run ReaderScenario.env_without_token
  = (Reader.JsonError 500 "Access token not configured" false, 0%nat, [])
  ∧ (Writer.handler WriterScenario.remote WriterScenario.env
       {| Writer.method := "POST"; Writer.cookie := None;
          Writer.updates := Some [WriterScenario.update "B" 2] |} 0%nat).1.1
    = Writer.Json401 "Not authenticated" true.
Proof. split; vm_compute; reflexivity. Qed.

(** The reader's answer for the Bristol catalogue: the variant without a
    level is absent, the rows are in SKU order, the two rows with SKU
    [PNL-001] in the order of the reply. *)
Example reader_bristol_products :
  (λ r, (Reader.id r, Reader.sku r, Reader.currentStock r))
    <$> ReaderScenario.products_of (ReaderScenario.run ReaderScenario.env).1.1
  = [ ("gid://shopify/ProductVariant/4", "No SKU", 0);
      ("gid://shopify/ProductVariant/3", "PNL-001", -3);
      ("gid://shopify/ProductVariant/5", "PNL-001", 4);
      ("gid://shopify/ProductVariant/1", "PNL-002", 7) ].
Proof. vm_compute. reflexivity. Qed.

Lemma reader_run_ok :
  ∃ products,
    ReaderScenario.run ReaderScenario.env
    = (Reader.JsonProducts products,
       (ReaderScenario.run ReaderScenario.env).1.2,
       (ReaderScenario.run ReaderScenario.env).2)
    ∧ products
      = ReaderScenario.products_of (ReaderScenario.run ReaderScenario.env).1.1.
Proof. eexists. split; vm_compute; reflexivity. Qed.

(** The witness of [reader_excludes_unstocked]: the one call asks for
    Bristol; variant 2 of the reply has no level there, and no row of the
    answer carries its id. *)
Lemma reader_excludes_unstocked_witness :
  Reader.q_location <$> (ReaderScenario.run ReaderScenario.env).2
  = ["gid://shopify/Location/62584946887"]
  ∧ Forall (λ r, Reader.id r ≠ "gid://shopify/ProductVariant/2")
      (ReaderScenario.products_of (ReaderScenario.run ReaderScenario.env).1.1).
Proof.
  destruct reader_run_ok as (products & Hrun & <-).
  destruct (reader_excludes_unstocked JS.compare_code_units ReaderScenario.remote
              _ _ _ _ _ _ Hrun)
    as (c & status & data & es & loc & Hc & Hloc & Hq & Hf & He & _ & _ & Hid).
  split.
  - rewrite Hc. cbn [fmap list_fmap]. rewrite Hq.
    injection Hloc as <-. reflexivity.
  - apply Forall_forall.
    apply Hid. intros product variant Hp Hv Hx.
    unfold ReaderScenario.remote in Hf. injection Hf as _ <-.
    injection He as <-.
    unfold ReaderScenario.bristol in Hp.
    repeat (apply elem_of_cons in Hp as [->|Hp]); [..|by apply elem_of_nil in Hp];
      simpl in Hv;
      repeat (apply elem_of_cons in Hv as [->|Hv]); try (by apply elem_of_nil in Hv);
      try (vm_compute in Hx; discriminate).
    intros item [= <-]. reflexivity.
Defined.

(** The witness of [reader_sorted_by_sku], under the code-unit comparison
    of strings. *)
Lemma reader_sorted_by_sku_witness :
  Sorted (λ a b, JS.compare_code_units (Reader.sku a) (Reader.sku b) ≤ 0)
    (ReaderScenario.products_of (ReaderScenario.run ReaderScenario.env).1.1).
Proof.
  destruct reader_run_ok as (products & Hrun & <-).
  exact (proj1 (reader_sorted_by_sku JS.compare_code_units ReaderScenario.remote
                  _ _ _ _ _ _ compare_code_units_total
                  compare_code_units_trans Hrun)).
Defined.

(** C9, as the specification words it, fails on a reply that reports an
    oversold variant: the row carries the negative quantity. *)
Lemma reader_stock_nonneg_counterexample :
  Reader.currentStock
    <$> ReaderScenario.products_of (ReaderScenario.run ReaderScenario.env).1.1
  = [0; -3; 4; 7]
  ∧ ¬ ∀ r, r ∈ ReaderScenario.products_of
                 (ReaderScenario.run ReaderScenario.env).1.1 →
           0 ≤ Reader.currentStock r.
Proof.
  assert (Hl : Reader.currentStock
                 <$> ReaderScenario.products_of
                       (ReaderScenario.run ReaderScenario.env).1.1
               = [0; -3; 4; 7]) by (vm_compute; reflexivity).
  split; [exact Hl|]. intros H.
  assert (Hall : Forall (λ n, 0 ≤ n)
                   (Reader.currentStock
                      <$> ReaderScenario.products_of
                            (ReaderScenario.run ReaderScenario.env).1.1)).
  { apply Forall_fmap, Forall_forall. exact H. }
  rewrite Hl in Hall.
  apply Forall_cons in Hall as [_ Hall]. apply Forall_cons in Hall as [Hneg _].
  lia.
Qed.

(** The witness of [reader_stock_of_level]: every row of the Bristol
    answer carries the id and the quantity of one level of the reply. *)
Lemma reader_stock_of_level_witness :
  Forall (λ r, ∃ inventoryLevel,
            inventoryLevel ∈ Reader.levels ReaderScenario.bristol
            ∧ Reader.inventoryLevelId r = Reader.l_id inventoryLevel
            ∧ Reader.currentStock r
              = default 0 (Reader.l_available inventoryLevel))
    (ReaderScenario.products_of (ReaderScenario.run ReaderScenario.env).1.1).
Proof.
  destruct reader_run_ok as (products & Hrun & <-).
  destruct (reader_stock_of_level JS.compare_code_units ReaderScenario.remote
              _ _ _ _ _ _ Hrun)
    as (c & status & data & es & _ & Hf & He & Hlevel & _).
  unfold ReaderScenario.remote in Hf. injection Hf as _ <-.
  injection He as <-. apply Forall_forall. intros r Hr.
  destruct (Hlevel r Hr) as (product & variant & item & inventoryLevel
                             & _ & _ & _ & _ & Hin & _ & _ & Hid & Hstock).
  by exists inventoryLevel.
Defined.

(** ** The client's diff *)
Section DiffFacts.
Import Reader Diff.

Lemma changes_foldl stockValues products : ∀ changedItems,
  foldl (λ changedItems product,
           if edited stockValues product
           then changedItems ++ [change stockValues product]
           else changedItems)
        changedItems products
  = changedItems
    ++ (change stockValues <$> List.filter (edited stockValues) products).
Proof.
  induction products as [|product rest IH]; intros changedItems.
  - by rewrite app_nil_r.
  - cbn [foldl List.filter]. rewrite IH.
    destruct (edited stockValues product); [|done].
    by rewrite <- app_assoc.
Qed.

Lemma changes_filter products stockValues :
  changes products stockValues
  = change stockValues <$> List.filter (edited stockValues) products.
Proof. unfold changes. by rewrite changes_foldl. Qed.

Lemma edited_true stockValues product :
  edited stockValues product = true ↔
  ∃ currentValue,
    stockValues !! id product = Some currentValue
    ∧ currentValue ≠ ""
    ∧ currentValue ≠ JS.toString (currentStock product).
Proof.
  unfold edited. destruct (stockValues !! id product) as [v|]; split.
  - intros [H1%negb_true_iff%String.eqb_neq H2%negb_true_iff%String.eqb_neq]%andb_true_iff.
    by exists v.
  - intros (v' & [= <-] & H1 & H2).
    apply andb_true_iff. split; by apply negb_true_iff, String.eqb_neq.
  - discriminate.
  - intros (v' & [=] & _).
Qed.

(** An edit that is not empty and parses to a number other than the
    current stock is not the text of the current stock. *)
Lemma emitted_as_specified_edited stockValues product :
  emitted_as_specified stockValues product = true →
  edited stockValues product = true.
Proof.
  unfold emitted_as_specified, edited.
  destruct (stockValues !! id product) as [v|]; [|done].
  intros [Hne Hparse%bool_decide_eq_true]%andb_true_iff.
  apply andb_true_iff. split; [|done].
  apply negb_true_iff, String.eqb_neq. intros ->.
  by rewrite parseInt_toString in Hparse.
Qed.

(** However the field was edited before, typing the current stock back
    into it leaves the record out of the diff. *)
Lemma handleStockChange_back prev product :
  0 ≤ currentStock product →
  edited (handleStockChange prev (id product)
            (JS.toString (currentStock product))) product = false.
Proof.
  intros Hpos. unfold handleStockChange.
  rewrite all_digits_toString by done. rewrite andb_false_r.
  unfold edited. by rewrite lookup_insert_eq, String.eqb_refl.
Qed.

(** C4 (as amended).  The diff lists, in baseline order, one change for
    each record whose edit exists, is not empty and is not the text of the
    record's current stock; a record whose edit is that text contributes
    nothing, wherever it stands in the baseline; and every record whose
    edit is not empty and parses to a number other than its current stock
    is among those listed. *)
Theorem diff_changes products stockValues :
  changes products stockValues
  = change stockValues <$> List.filter (edited stockValues) products
  ∧ (∀ product,
       edited stockValues product = true ↔
       ∃ currentValue,
         stockValues !! id product = Some currentValue
         ∧ currentValue ≠ ""
         ∧ currentValue ≠ JS.toString (currentStock product))
  ∧ (∀ before product after,
       products = before ++ product :: after →
       stockValues !! id product = Some (JS.toString (currentStock product)) →
       changes products stockValues
       = changes before stockValues ++ changes after stockValues)
  ∧ (∀ product,
       emitted_as_specified stockValues product = true →
       edited stockValues product = true).
Proof.
  split; [apply changes_filter|]. split; [intros; apply edited_true|].
  split; [|intros; by apply emitted_as_specified_edited].
  intros before product after -> Hsame.
  rewrite !changes_filter, List.filter_app, fmap_app. cbn [List.filter].
  assert (edited stockValues product = false) as ->; [|done].
  unfold edited. rewrite Hsame, String.eqb_refl. done.
Qed.

End DiffFacts.

(** C4, as the specification words it, fails on an edit that spells the
    current stock with a leading zero: [05] is accepted by the input filter,
    parses to the stock 5 of the record, and still yields a change (from 5
    to 5), because the diff compares texts. *)
Lemma diff_changes_counterexample :
  let product := DiffScenario.row "1" 5 in
  let stockValues :=
    Diff.handleStockChange (DiffScenario.initialValues [product])
      (Reader.id product) "05" in
  Diff.changes [product] stockValues
  = [ {| Diff.c_inventoryItemId := "gid://shopify/InventoryItem/1";
         Diff.c_sku := "PNL-001";
         Diff.oldValue := 5;
         Diff.newValue := Some 5 |} ]
  ∧ Diff.emitted_as_specified stockValues product = false
  ∧ ¬ (Diff.edited stockValues product
       = Diff.emitted_as_specified stockValues product).
Proof. vm_compute. repeat split. discriminate. Qed.

(** The message signed for the scenario's three parameters, and the
    callback that passes both guards. *)
Example callback_message :
  Callback.message (CallbackScenario.params "9f3a")
  = "code=c0de&shop=panel-company.myshopify.com&state=9f3a".
Proof. vm_compute. reflexivity. Qed.

Example callback_accepted :
  let q := CallbackScenario.params "9f3a" in
  let signed :=
    <["hmac" := Http.QString
        (CallbackScenario.digest "secret" (Callback.message q))]> q in
  (Callback.handler CallbackScenario.digest CallbackScenario.token_endpoint
     CallbackScenario.env (CallbackScenario.callback signed) 0%nat).1
  = (Callback.Redirect "/"
       [ "shopify_access_token=shpat_1; Path=/; HttpOnly; Secure; SameSite=Lax; Max-Age=31536000";
         "shopify_shop=panel-company.myshopify.com; Path=/; HttpOnly; Secure; SameSite=Lax; Max-Age=31536000";
         "shopify_nonce=; Path=/; HttpOnly; Secure; SameSite=Lax; Max-Age=0" ],
     1%nat).
Proof. vm_compute. reflexivity. Qed.

(** * Further properties of the code *)

(** ** The sort, independently of how it is computed *)
Section SortUnique.
Context {A : Type} (cmp : A → A → Z).
Hypothesis cmp_total : ∀ a b, cmp a b ≤ 0 ∨ cmp b a ≤ 0.
Hypothesis cmp_trans : ∀ a b c, cmp a b ≤ 0 → cmp b c ≤ 0 → cmp a c ≤ 0.

Lemma tied_refl x : JS.tied cmp x x = true.
Proof.
  unfold JS.tied. destruct (cmp_total x x) as [H|H];
    apply Z.leb_le in H; by rewrite H.
Qed.

Lemma filter_tied_head k x l l' :
  List.filter (JS.tied cmp k) l' = List.filter (JS.tied cmp k) (x :: l) →
  JS.tied cmp k x = true → x ∈ l'.
Proof.
  intros Heq Hk. cbn [List.filter] in Heq. rewrite Hk in Heq.
  assert (Hin : In x (List.filter (JS.tied cmp k) l')) by (rewrite Heq; by left).
  apply filter_In in Hin as [Hin _]. by apply list_elem_of_In.
Qed.

Lemma sorted_head_least x l y :
  Sorted (λ a b, cmp a b ≤ 0) (x :: l) → y ∈ x :: l → cmp x y ≤ 0.
Proof.
  intros Hs Hy.
  assert (Htr : Transitive (λ a b, cmp a b ≤ 0))
    by (intros a b c; apply cmp_trans).
  apply Sorted_StronglySorted in Hs; [|done].
  apply StronglySorted_inv in Hs as [_ Hall].
  apply elem_of_cons in Hy as [->|Hy].
  - destruct (cmp_total x x); done.
  - rewrite List.Forall_forall in Hall. by apply Hall, list_elem_of_In.
Qed.

(** Two sorted lists with the same classes of tied elements, each class
    listed in the same order, are the same list. *)
Lemma stable_sorted_unique l1 : ∀ l2,
  Sorted (λ a b, cmp a b ≤ 0) l1 →
  Sorted (λ a b, cmp a b ≤ 0) l2 →
  (∀ k, List.filter (JS.tied cmp k) l1 = List.filter (JS.tied cmp k) l2) →
  l1 = l2.
Proof.
  induction l1 as [|x t1 IH]; intros [|y t2] Hs1 Hs2 Hf; [done| | |].
  - specialize (Hf y). cbn [List.filter] in Hf.
    rewrite tied_refl in Hf. discriminate.
  - specialize (Hf x). cbn [List.filter] in Hf.
    rewrite tied_refl in Hf. discriminate.
  - assert (Hxy : cmp x y ≤ 0).
    { apply (sorted_head_least x t1); [done|].
      apply (filter_tied_head y y t2); [by rewrite Hf|apply tied_refl]. }
    assert (Hyx : cmp y x ≤ 0).
    { apply (sorted_head_least y t2); [done|].
      apply (filter_tied_head x x t1); [by rewrite Hf|apply tied_refl]. }
    assert (x = y) as <-.
    { pose proof (Hf x) as Hx. cbn [List.filter] in Hx.
      rewrite tied_refl in Hx.
      assert (JS.tied cmp x y = true) as Ht.
      { unfold JS.tied. apply andb_true_iff. split; by apply Z.leb_le. }
      rewrite Ht in Hx. by injection Hx. }
    f_equal. apply IH.
    + by apply Sorted_inv in Hs1 as [? _].
    + by apply Sorted_inv in Hs2 as [? _].
    + intros k. specialize (Hf k). cbn [List.filter] in Hf.
      destruct (JS.tied cmp k x); [by injection Hf|done].
Qed.

(** X1.  For a consistent comparator, the sort's result is the only
    arrangement that is ordered along the list and lists every class of
    tied elements in the order of the input: whatever algorithm the engine
    runs, a stable sort returns this list. *)
Theorem sort_unique l l' :
  Sorted (λ a b, cmp a b ≤ 0) l' →
  (∀ k, List.filter (JS.tied cmp k) l' = List.filter (JS.tied cmp k) l) →
  l' = JS.sort cmp l.
Proof.
  intros Hs Hf. apply stable_sorted_unique; [done| |].
  - by apply sort_Sorted.
  - intros k. rewrite Hf. symmetry. by apply sort_stable.
Qed.

End SortUnique.

Lemma by_number_tied k l l' :
  (∀ n, List.filter (λ r, bool_decide (r.1 = n)) l'
        = List.filter (λ r, bool_decide (r.1 = n)) l) →
  List.filter (JS.tied SortScenario.by_number k) l'
  = List.filter (JS.tied SortScenario.by_number k) l.
Proof.
  intros H.
  assert (Hext : ∀ r, JS.tied SortScenario.by_number k r
                      = bool_decide (r.1 = k.1)).
  { intros r. unfold JS.tied, SortScenario.by_number.
    destruct (Z.leb_spec (k.1 - r.1) 0), (Z.leb_spec (r.1 - k.1) 0);
      case_bool_decide; simpl; (done || lia). }
  rewrite !(List.filter_ext _ _ Hext). apply H.
Qed.

(** The witness of [sort_unique]: rows compared by their number. *)
Lemma sort_unique_witness :
  [(1, "y"); (1, "z"); (2, "x")]
  = JS.sort SortScenario.by_number SortScenario.rows.
Proof.
  apply (sort_unique SortScenario.by_number).
  - intros a b. unfold SortScenario.by_number. lia.
  - intros a b c. unfold SortScenario.by_number. lia.
  - repeat constructor; unfold SortScenario.by_number; simpl; lia.
  - intros k. apply by_number_tied. intros n. unfold SortScenario.rows.
    cbn [List.filter fst]. repeat case_bool_decide; (done || lia).
Defined.

(** ** More on the inventory reader *)
Section ReaderMore.
Import Http Reader.
Context {World : Type}.
Variable localeCompare : string → string → Z.
Variable fetch : World → QueryCall → FetchResult ProductsData * World.

Abbreviation reader_handler := (Reader.handler localeCompare fetch).
Abbreviation by_sku := (λ a b : Product, localeCompare (sku a) (sku b)).


Lemma after_fetch_cases (response : FetchResult ProductsData) :
  (∀ products, after_fetch localeCompare response = inr products →
     ∃ status data es,
       response = FetchResponse status (JsonValue data)
       ∧ ok status = true ∧ errors data = None ∧ edges data = Some es)
  ∧ (∀ status data errs,
       response = FetchResponse status (JsonValue data) →
       ok status = true → errors data = Some errs →
       after_fetch localeCompare response
       = inl (ErrorObject (JS.or_str (first_message (Some errs)) "GraphQL error")))
  ∧ (∀ status body,
       response = FetchResponse status body → ok status = false →
       after_fetch localeCompare response
       = inl (ErrorObject ("Shopify API error: " +:+ JS.toString status))).
Proof.
  split; [|split].
  - intros products. unfold after_fetch.
    destruct response as [e|status [e|data]]; try discriminate.
    + destruct (ok status); discriminate.
    + destruct (ok status) eqn:Hok; [|discriminate]. cbn [negb].
      destruct (errors data) eqn:He; [discriminate|].
      destruct (edges data) as [es|] eqn:Hes; [|discriminate].
      intros _. by exists status, data, es.
  - intros status data errs -> Hok He. unfold after_fetch.
    by rewrite Hok, He.
  - intros status body -> Hok. unfold after_fetch. by rewrite Hok.
Qed.

(** Once the call is made, the answer is read off the reply alone. *)
Lemma handler_call env req w resp w' c :
  reader_handler env req w = (resp, w', [c]) →
  resp = match after_fetch localeCompare (fetch w c).1 with
         | inr products => JsonProducts products
         | inl e => JsonError 500 (thrown_message e "Failed to fetch products") false
         end.
Proof.
  unfold handler.
  destruct (negb (String.eqb (method req) "GET")); [discriminate|].
  destruct (locationId req) as [[loc|]|]; try discriminate.
  destruct (negb (JS.truthy loc)); [discriminate|].
  destruct (negb (JS.truthy_opt _)); [discriminate|].
  match goal with |- context [fetch w ?c] => set (call := c) end.
  destruct (fetch w call) as [response w1] eqn:Hf.
  intros [= <- <- <-]. by rewrite Hf.
Qed.

(** X4.  Once the reader has made its call, it answers 200 only to a reply
    with a 2xx status and no [errors] field.  A 2xx reply that carries an
    [errors] list is answered 500 with the first error's message, or
    "GraphQL error" when there is none, whatever data came with it; a reply
    with another status is answered 500 "Shopify API error: <status>".  No
    failure is marked [needsAuth]. *)
Theorem reader_reply_errors env req w resp w' c :
  reader_handler env req w = (resp, w', [c]) →
  (∀ products, resp = JsonProducts products →
     ∃ status data,
       (fetch w c).1 = FetchResponse status (JsonValue data)
       ∧ ok status = true ∧ errors data = None)
  ∧ (∀ status data errs,
       (fetch w c).1 = FetchResponse status (JsonValue data) →
       ok status = true → errors data = Some errs →
       resp = JsonError 500
                (JS.or_str (first_message (Some errs)) "GraphQL error") false)
  ∧ (∀ status body,
       (fetch w c).1 = FetchResponse status body → ok status = false →
       resp = JsonError 500 ("Shopify API error: " +:+ JS.toString status) false)
  ∧ (∀ status error needsAuth,
       resp = JsonError status error needsAuth →
       status = 500 ∧ needsAuth = false).
Proof.
  intros ->%handler_call.
  destruct (after_fetch_cases (fetch w c).1) as (Hok & Herr & Hstatus).
  split; [|split; [|split]].
  - intros products Hp.
    destruct (after_fetch localeCompare (fetch w c).1) as [e|ps] eqn:Ha;
      [discriminate|].
    destruct (Hok ps eq_refl) as (status & data & es & -> & ? & ? & _).
    by exists status, data.
  - intros status data errs Hr Hs He. by rewrite (Herr _ _ _ Hr Hs He).
  - intros status body Hr Hs. by rewrite (Hstatus _ _ Hr Hs).
  - intros status error needsAuth.
    destruct (after_fetch localeCompare (fetch w c).1); [|discriminate].
    by intros [= <- _ <-].
Qed.

Lemma record_normalised product variant item inventoryLevel :
  let r := record product variant item inventoryLevel in
  sku r ≠ "" ∧ variantTitle r ≠ Some "Default Title" ∧ image r ≠ Some "".
Proof.
  simpl. repeat split.
  - unfold JS.or_str. destruct (v_sku variant) as [s|]; [|done].
    unfold JS.truthy. by destruct (String.eqb_spec s "").
  - destruct (String.eqb_spec (v_title variant) "Default Title"); simpl;
      congruence.
  - unfold JS.or_opt, JS.truthy_opt.
    destruct (p_featuredImage product ≫= url) as [u|]; [|done].
    unfold JS.truthy. destruct (String.eqb_spec u ""); simpl; congruence.
Qed.

(** X5.  Every row of a 200 answer is normalised: its SKU is never empty
    (a missing or empty SKU reads "No SKU"), its variant title is never the
    platform's placeholder "Default Title", and its image is never the
    empty string. *)
Theorem reader_rows_normalised env req w products w' calls :
  reader_handler env req w = (JsonProducts products, w', calls) →
  ∀ r, r ∈ products →
       sku r ≠ "" ∧ variantTitle r ≠ Some "Default Title" ∧ image r ≠ Some "".
Proof.
  intros (c & status & data & es & _ & _ & _ & ->)%handler_products r Hr.
  rewrite sort_elem_of, elem_of_format in Hr.
  destruct Hr as (product & variant & item & inventoryLevel & _ & _ & _ & _ & ->).
  apply record_normalised.
Qed.

Lemma length_format_variants product variants :
  List.length (omap (format_variant product) variants)
  = List.length
      (omap (λ variant, item ← v_inventoryItem variant; i_inventoryLevel item)
            variants).
Proof.
  induction variants as [|variant rest IH]; [done|].
  change (omap ?f (variant :: rest))
    with (match f variant with
          | Some y => y :: omap f rest
          | None => omap f rest
          end).
  unfold format_variant at 1.
  destruct (v_inventoryItem variant) as [item|]; cbn [mbind option_bind];
    [|done].
  destruct (i_inventoryLevel item); cbn [List.length]; by rewrite IH.
Qed.

Lemma length_omap_le {B C} (f : B → option C) l :
  (List.length (omap f l) ≤ List.length l)%nat.
Proof.
  induction l as [|x rest IH]; [done|].
  change (omap f (x :: rest))
    with (match f x with Some y => y :: omap f rest | None => omap f rest end).
  destruct (f x); cbn [List.length]; lia.
Qed.

Lemma length_format es : List.length (format es) = List.length (levels es).
Proof.
  rewrite format_bind. unfold levels.
  induction es as [|product rest IH]; [done|].
  rewrite !bind_cons, !length_app, IH. f_equal. apply length_format_variants.
Qed.

(** X6.  A 200 answer has exactly one row per inventory level of the
    reply, and so never more rows than the reply has variants. *)
Theorem reader_one_row_per_level env req w products w' calls :
  reader_handler env req w = (JsonProducts products, w', calls) →
  ∃ c status data es,
    fetch w c = (FetchResponse status (JsonValue data), w')
    ∧ edges data = Some es
    ∧ List.length products = List.length (levels es)
    ∧ (List.length products ≤ List.length (es ≫= p_variants))%nat.
Proof.
  intros (c & status & data & es & _ & Hf & He & ->)%handler_products.
  exists c, status, data, es. split; [done|]. split; [done|].
  rewrite sort_Permutation, length_format. split; [done|].
  unfold levels. clear.
  induction es as [|product rest IH]; [done|].
  rewrite !bind_cons, !length_app.
  pose proof (length_omap_le
                (λ variant, item ← v_inventoryItem variant; i_inventoryLevel item)
                (p_variants product)).
  lia.
Qed.

End ReaderMore.


(** The witness of [reader_rows_normalised]. *)
Lemma reader_rows_normalised_witness :
  Forall (λ r, Reader.sku r ≠ "" ∧ Reader.variantTitle r ≠ Some "Default Title"
               ∧ Reader.image r ≠ Some "")
    (ReaderScenario.products_of (ReaderScenario.run ReaderScenario.env).1.1).
Proof.
  destruct reader_run_ok as (products & Hrun & <-).
  apply Forall_forall.
  exact (reader_rows_normalised JS.compare_code_units ReaderScenario.remote
           _ _ _ _ _ _ Hrun).
Defined.

(** The witness of [reader_one_row_per_level]: four levels, four rows. *)
Lemma reader_one_row_per_level_witness :
  List.length
    (ReaderScenario.products_of (ReaderScenario.run ReaderScenario.env).1.1)
  = List.length (Reader.levels ReaderScenario.bristol).
Proof.
  destruct reader_run_ok as (products & Hrun & <-).
  destruct (reader_one_row_per_level JS.compare_code_units ReaderScenario.remote
              _ _ _ _ _ _ Hrun)
    as (c & status & data & es & Hf & He & Hlen & _).
  unfold ReaderScenario.remote in Hf. injection Hf as _ <-.
  injection He as <-. exact Hlen.
Defined.

(** The witness of [reader_reply_errors]: a 200 reply with an [errors]
    list and the whole catalogue beside it is answered 500. *)
Lemma reader_reply_errors_witness :
  ReaderErrorScenario.run.1.1 = Reader.JsonError 500 "Throttled" false.
Proof.
  assert (Hrun : ReaderErrorScenario.run
                 = (ReaderErrorScenario.run.1.1, ReaderErrorScenario.run.1.2,
                    [ReaderErrorScenario.call]))
    by (vm_compute; reflexivity).
  destruct (reader_reply_errors JS.compare_code_units ReaderErrorScenario.remote
              _ _ _ _ _ _ Hrun) as (_ & Herr & _).
  exact (Herr 200 _ [ {| Http.message := Some "Throttled" |} ]
           eq_refl eq_refl eq_refl).
Defined.

(** ** More on the inventory writer *)
Section WriterMore.
Import Http Writer Trace.
Context {World : Type}.
Variable fetch : World → MutationCall → FetchResult MutationData * World.

Abbreviation process := (Writer.process fetch).
Abbreviation responses := (Writer.responses fetch).
Abbreviation handler := (Writer.handler fetch).

Lemma delays_app tr1 tr2 : delays (tr1 ++ tr2) = delays tr1 ++ delays tr2.
Proof. unfold delays. apply omap_app. Qed.

Lemma after_fetch_delays update results response results' evs :
  after_fetch update results response = inr (results', evs) →
  delays evs = if completed response then [100] else [].
Proof.
  unfold after_fetch, completed.
  destruct response as [e|status [e|data]]; [discriminate| |].
  - destruct (ok status); [discriminate|]. by intros [= _ <-].
  - destruct (ok status); by intros [= _ <-].
Qed.

Lemma after_fetch_thrown update results response e :
  after_fetch update results response = inl e → completed response = false.
Proof.
  unfold after_fetch, completed.
  destruct response as [e'|status [e'|data]]; [done| |];
    destruct (ok status); done.
Qed.


(** The timers of a run are those of the calls that completed. *)
Lemma process_delays sh tok l : ∀ results w out w' tr,
  process sh tok l results w = (out, w', tr) →
  delays tr
  = replicate
      (List.length
         (List.filter completed
            (take (List.length (fetches tr)) (responses sh tok l w))))
      100.
Proof.
  induction l as [|update rest IH]; intros results w out w' tr.
  - by intros [= <- <- <-].
  - rewrite responses_cons. simpl process.
    destruct (fetch w (mutation_call sh tok update)) as [response w1] eqn:Hf.
    cbn [fst snd].
    destruct (after_fetch update results response) as [e|[results' evs]] eqn:Ha.
    + intros [= <- <- <-]. cbn. by rewrite (after_fetch_thrown _ _ _ _ Ha).
    + destruct (process sh tok rest results' w1) as [[out' w2] tr'] eqn:Hp.
      intros [= <- <- <-].
      pose proof (after_fetch_delays _ _ _ _ _ Ha) as Hd.
      apply after_fetch_inr in Ha as (Hev & _).
      rewrite fetches_cons_fetch, fetches_app, Hev. cbn [app List.length take].
      change (delays (EvFetch ?c :: ?t)) with (delays t).
      rewrite delays_app, Hd, (IH _ _ _ _ _ Hp). cbn [List.filter].
      by destruct (completed response).
Qed.


(** The events of an iteration that does not throw: the timer, when the
    call completed. *)
Lemma after_fetch_events update results response results' evs :
  after_fetch update results response = inr (results', evs) →
  evs = if completed response then [EvDelay 100] else [].
Proof.
  unfold after_fetch, completed.
  destruct response as [e|status [e|data]]; [discriminate| |].
  - destruct (ok status); [discriminate|]. by intros [= _ <-].
  - destruct (ok status); by intros [= _ <-].
Qed.

(** The trace of a run, event by event: each call made, followed at once
    by its timer when it completed. *)
Lemma process_trace sh tok l : ∀ results w out w' tr,
  process sh tok l results w = (out, w', tr) →
  tr = mjoin (zip_with
                (λ c r, EvFetch c :: (if completed r then [EvDelay 100] else []))
                (fetches tr) (responses sh tok l w)).
Proof.
  induction l as [|update rest IH]; intros results w out w' tr.
  - by intros [= <- <- <-].
  - rewrite responses_cons. simpl process.
    destruct (fetch w (mutation_call sh tok update)) as [response w1] eqn:Hf.
    cbn [fst snd].
    destruct (after_fetch update results response) as [e|[results' evs]] eqn:Ha.
    + intros [= <- <- <-]. cbn. by rewrite (after_fetch_thrown _ _ _ _ Ha).
    + destruct (process sh tok rest results' w1) as [[out' w2] tr'] eqn:Hp.
      intros [= <- <- <-].
      pose proof (after_fetch_events _ _ _ _ _ Ha) as Hd.
      apply after_fetch_inr in Ha as (Hev & _).
      rewrite fetches_cons_fetch, fetches_app, Hev. cbn [app zip_with].
      change (mjoin (?x :: ?t)) with (x ++ mjoin t).
      rewrite <- (IH _ _ _ _ _ Hp), Hd. reflexivity.
Qed.

(** X8.  For a batch that reaches the loop, the trace of the run is, call
    by call in the order made, the call followed at once by one 100 ms
    timer when it was answered with a 2xx status and a body that parsed,
    and the call alone when it was answered with another status or not
    answered: no timer comes before its call, and there is no timer of any
    other length.  So the timers of the run are as many as the completed
    calls. *)
Theorem writer_delays_follow_completed_calls env req w l tok resp w' tr :
  method req = "POST" →
  accessToken (getAuthFromCookies env req) = Some tok →
  JS.truthy tok = true →
  updates req = Some l →
  handler env req w = (resp, w', tr) →
  tr = mjoin (zip_with
                (λ c r, EvFetch c :: (if completed r then [EvDelay 100] else []))
                (fetches tr)
                (responses (shop (getAuthFromCookies env req)) tok l w))
  ∧ delays tr
    = replicate
        (List.length
           (List.filter completed
              (take (List.length (fetches tr))
                 (responses (shop (getAuthFromCookies env req)) tok l w))))
        100.
Proof.
  intros Hm Htok Ht Hu Hh. destruct l as [|u l].
  - unfold handler in Hh.
    rewrite Hm, Htok, Ht, Hu, String.eqb_refl in Hh. cbn [negb] in Hh.
    by injection Hh as <- <- <-.
  - rewrite (handler_batch fetch env req w (u :: l) tok) in Hh by done.
    destruct (process _ tok (u :: l) results0 w) as [[out w1] tr1] eqn:Hp.
    injection Hh as <- <- <-. split.
    + by apply (process_trace _ _ _ _ _ _ _ _ Hp).
    + by apply (process_delays _ _ _ _ _ _ _ _ Hp).
Qed.

End WriterMore.


(** The witness of [writer_delays_follow_completed_calls]: of three calls,
    the two answered 200 are each followed by a timer, the one answered 429
    is not. *)
Lemma writer_delays_follow_completed_calls_witness :
  (Writer.handler WriterScenario.remote WriterScenario.env
     (WriterScenario.post
        [WriterScenario.update "A" 5; WriterScenario.update "C" 1;
         WriterScenario.update "B" 2]) 0%nat).2
  = [Writer.EvFetch (WriterScenario.call "A" 5); Writer.EvDelay 100;
     Writer.EvFetch (WriterScenario.call "C" 1);
     Writer.EvFetch (WriterScenario.call "B" 2); Writer.EvDelay 100].
Proof.
  set (req := WriterScenario.post _).
  destruct (Writer.handler WriterScenario.remote WriterScenario.env req 0%nat)
    as [[resp w'] tr] eqn:Hh.
  cbn [snd].
  rewrite (proj1 (writer_delays_follow_completed_calls WriterScenario.remote
                    WriterScenario.env req 0%nat _ "shpat_1" resp w' tr
                    eq_refl eq_refl eq_refl eq_refl Hh)).
  vm_compute in Hh. injection Hh as _ _ <-. reflexivity.
Defined.

(** ** Cookies written by one handler and read by another *)
Section CookieRoundTrips.
Import Http.

Lemma append_cons x (a b : string) : String x a +:+ b = String x (a +:+ b).
Proof. reflexivity. Qed.

Lemma append_assoc (a b c : string) : (a +:+ b) +:+ c = a +:+ (b +:+ c).
Proof.
  induction a as [|x a IH]; [done|]. rewrite !append_cons. by rewrite IH.
Qed.

Lemma absent_app c a b :
  JS.absent c (a +:+ b) = JS.absent c a && JS.absent c b.
Proof.
  induction a as [|x a IH]; [done|]. rewrite append_cons.
  cbn [JS.absent]. rewrite IH. by rewrite andb_assoc.
Qed.

Lemma split_app_sep sep a b :
  JS.absent sep a = true →
  JS.split sep (a +:+ String sep b) = a :: JS.split sep b.
Proof.
  induction a as [|x a IH].
  - intros _. change ("" +:+ String sep b) with (String sep b).
    cbn [JS.split]. by rewrite Ascii.eqb_refl.
  - rewrite append_cons. cbn [JS.absent JS.split].
    intros [Hx%negb_true_iff Ha]%andb_true_iff. by rewrite Hx, IH.
Qed.

Lemma truthy_ne s : s ≠ "" → JS.truthy s = true.
Proof. unfold JS.truthy. by destruct (String.eqb_spec s ""). Qed.

(** X9.  The writer reads back the credential the callback stored: from
    the Cookie header made of the two lasting cookies of the callback,
    [shopify_access_token=<token>; shopify_shop=<shop>], it takes that token
    and that shop, whatever the environment holds, provided neither is
    empty or contains [;] or [=]. *)
Theorem writer_reads_stored_credential env method updates token shop :
  token ≠ "" → JS.absent ";" token = true → JS.absent "=" token = true →
  shop ≠ "" → JS.absent ";" shop = true → JS.absent "=" shop = true →
  Writer.getAuthFromCookies env
    {| Writer.method := method;
       Writer.cookie :=
         Some ("shopify_access_token=" +:+ token +:+ "; shopify_shop=" +:+ shop);
       Writer.updates := updates |}
  = {| Writer.accessToken := Some token; Writer.shop := shop |}.
Proof.
  intros Ht Hts Hte Hs Hss Hse.
  unfold Writer.getAuthFromCookies. cbn [Writer.cookie JS.or_str].
  change (JS.truthy ("shopify_access_token=" +:+ ?x)) with true. cbv iota.
  assert (Hsplit :
    JS.split ";" ("shopify_access_token=" +:+ token +:+ "; shopify_shop=" +:+ shop)
    = [ "shopify_access_token=" +:+ token; " shopify_shop=" +:+ shop ]).
  { rewrite <- append_assoc.
    change ("; shopify_shop=" +:+ shop)
      with (String ";" (" shopify_shop=" +:+ shop)).
    rewrite split_app_sep by (simpl; exact Hts).
    by rewrite split_absent by (simpl; exact Hss). }
  assert (Htoken :
    cookie_value "shopify_access_token="
      ("shopify_access_token=" +:+ token +:+ "; shopify_shop=" +:+ shop)
    = Some token).
  { unfold cookie_value, cookie_entry. rewrite Hsplit.
    cbn [JS.find]. unfold JS.startsWith, JS.trim.
    assert (String.prefix "shopify_access_token="
              (JS.trimEnd (JS.trimStart ("shopify_access_token=" +:+ token)))
            = true) as ->.
    { simpl. apply prefix_nil. }
    simpl. rewrite (split_absent "=") by done. reflexivity. }
  assert (Hshop :
    cookie_value "shopify_shop="
      ("shopify_access_token=" +:+ token +:+ "; shopify_shop=" +:+ shop)
    = Some shop).
  { unfold cookie_value, cookie_entry. rewrite Hsplit.
    cbn [JS.find]. unfold JS.startsWith, JS.trim.
    assert (String.prefix "shopify_shop="
              (JS.trimEnd (JS.trimStart ("shopify_access_token=" +:+ token)))
            = false) as -> by reflexivity.
    assert (String.prefix "shopify_shop="
              (JS.trimEnd (JS.trimStart (" shopify_shop=" +:+ shop)))
            = true) as ->.
    { simpl. apply prefix_nil. }
    simpl. rewrite (split_absent "=") by done. reflexivity. }
  rewrite Htoken, Hshop. unfold JS.or_opt, JS.or_str. cbn [JS.truthy_opt].
  by rewrite !truthy_ne.
Qed.

(** X10.  A token that contains [=] is cut at its first [=]: from the
    cookie [shopify_access_token=<a>=<b>] the writer takes [<a>] as the
    access token; with no shop cookie the shop is the configured default. *)
Theorem writer_token_cut_at_equals env method updates a b :
  a ≠ "" → JS.absent ";" a = true → JS.absent "=" a = true →
  JS.absent ";" b = true →
  Writer.getAuthFromCookies env
    {| Writer.method := method;
       Writer.cookie := Some ("shopify_access_token=" +:+ a +:+ "=" +:+ b);
       Writer.updates := updates |}
  = {| Writer.accessToken := Some a; Writer.shop := Writer.DEFAULT_SHOP env |}.
Proof.
  intros Ha Has Hae Hbs.
  unfold Writer.getAuthFromCookies. cbn [Writer.cookie JS.or_str].
  change (JS.truthy ("shopify_access_token=" +:+ ?x)) with true. cbv iota.
  assert (Hsplit :
    JS.split ";" ("shopify_access_token=" +:+ a +:+ "=" +:+ b)
    = [ "shopify_access_token=" +:+ a +:+ "=" +:+ b ]).
  { apply split_absent.
    change (JS.absent ";" (a +:+ String "=" b) = true).
    rewrite absent_app, Has. exact Hbs. }
  unfold cookie_value, cookie_entry. rewrite Hsplit.
  cbn [JS.find]. unfold JS.startsWith, JS.trim.
  assert (String.prefix "shopify_access_token="
            (JS.trimEnd (JS.trimStart ("shopify_access_token=" +:+ a +:+ "=" +:+ b)))
          = true) as ->.
  { simpl. apply prefix_nil. }
  assert (String.prefix "shopify_shop="
            (JS.trimEnd (JS.trimStart ("shopify_access_token=" +:+ a +:+ "=" +:+ b)))
          = false) as -> by reflexivity.
  cbn [mbind option_bind].
  assert (JS.split "=" ("shopify_access_token=" +:+ a +:+ "=" +:+ b)
          = "shopify_access_token" :: a :: JS.split "=" b) as ->.
  { change (JS.split "=" ("shopify_access_token=" +:+ a +:+ "=" +:+ b))
      with ("shopify_access_token" :: JS.split "=" (a +:+ String "=" b)).
    by rewrite (split_app_sep "=") by done. }
  cbn. unfold JS.or_opt. cbn [JS.truthy_opt]. by rewrite truthy_ne.
Qed.

End CookieRoundTrips.

(** The witness of [writer_reads_stored_credential]. *)
Lemma writer_reads_stored_credential_witness :
  Writer.getAuthFromCookies
    {| Writer.SHOP := Some "other.myshopify.com";
       Writer.SHOPIFY_ACCESS_TOKEN := Some "env_token" |}
    {| Writer.method := "POST";
       Writer.cookie :=
         Some "shopify_access_token=shpat_1; shopify_shop=panel-company.myshopify.com";
       Writer.updates := None |}
  = {| Writer.accessToken := Some "shpat_1";
       Writer.shop := "panel-company.myshopify.com" |}.
Proof.
  apply (writer_reads_stored_credential _ "POST" None "shpat_1"
           "panel-company.myshopify.com"); (discriminate || reflexivity).
Defined.

(** The witness of [writer_token_cut_at_equals]: a token that ends in
    base64 padding loses it. *)
Lemma writer_token_cut_at_equals_witness :
  Writer.getAuthFromCookies WriterScenario.env
    {| Writer.method := "POST";
       Writer.cookie := Some "shopify_access_token=c2VjcmV0=";
       Writer.updates := None |}
  = {| Writer.accessToken := Some "c2VjcmV0";
       Writer.shop := "panel-company.myshopify.com" |}.
Proof.
  apply (writer_token_cut_at_equals WriterScenario.env "POST" None "c2VjcmV0" "");
    (discriminate || reflexivity).
Defined.

(** ** The handshake, step by step *)
Section Handshake.
Import Http.

Lemma hex_pair_absent b :
  JS.absent ";" (Authorize.hex_pair "0123456789abcdef" (Byte.to_N b)) = true
  ∧ JS.absent "=" (Authorize.hex_pair "0123456789abcdef" (Byte.to_N b)) = true.
Proof. destruct b; split; reflexivity. Qed.

Lemma toHex_cons b rest :
  Authorize.toHex (b :: rest)
  = Authorize.hex_pair "0123456789abcdef" (Byte.to_N b) +:+ Authorize.toHex rest.
Proof. reflexivity. Qed.

Lemma toHex_absent bytes :
  JS.absent ";" (Authorize.toHex bytes) = true
  ∧ JS.absent "=" (Authorize.toHex bytes) = true.
Proof.
  induction bytes as [|b rest [IH1 IH2]]; [done|].
  rewrite toHex_cons, !absent_app, IH1, IH2.
  by destruct (hex_pair_absent b) as [-> ->].
Qed.

Lemma toHex_length bytes :
  String.length (Authorize.toHex bytes) = (2 * List.length bytes)%nat.
Proof.
  induction bytes as [|b rest IH]; [done|].
  change (String.length (Authorize.toHex (b :: rest)))
    with (S (S (String.length (Authorize.toHex rest)))).
  rewrite IH. simpl. lia.
Qed.

(** X11.  The first step of the handshake and its callback fit together.
    When the redirect is issued, the nonce is the lowercase hex text of the
    random bytes, two characters per byte; the cookie line stores it under
    [shopify_nonce] and the redirect URL ends with it as [state]; and a
    callback that brings back that cookie and that state passes the nonce
    guard of the callback handler. *)
Theorem handshake_nonce_round_trip env shop_param randomBytes location set_cookie :
  Authorize.handler env shop_param randomBytes
  = Authorize.Redirect location set_cookie →
  let nonce := Authorize.toHex randomBytes in
  String.length nonce = (2 * List.length randomBytes)%nat
  ∧ set_cookie
    = "shopify_nonce=" +:+ nonce +:+ "; Path=/; HttpOnly; Secure; SameSite=Lax"
  ∧ Authorize.ends_with_state location nonce
  ∧ ∀ q, q !! "state" = Some (QString nonce) →
         Callback.state_matches
           {| Callback.query := q;
              Callback.cookie := Some ("shopify_nonce=" +:+ nonce) |}.
Proof.
  intros Hh nonce. unfold Authorize.handler in Hh. fold nonce in Hh.
  destruct (Authorize.SHOPIFY_API_KEY env) as [key|]; [|discriminate].
  destruct (negb (JS.truthy key)); [discriminate|].
  injection Hh as <- <-.
  split; [apply toHex_length|]. split; [done|]. split.
  - eexists. by rewrite <- !append_assoc.
  - intros q Hq. exists nonce. split; [done|].
    destruct (toHex_absent randomBytes).
    by apply storedNonce_of_cookie.
Qed.

End Handshake.

(** The witness of [handshake_nonce_round_trip]: sixteen bytes give a
    nonce of thirty-two characters. *)
Lemma handshake_nonce_round_trip_witness :
  String.length (Authorize.toHex HandshakeScenario.entropy) = 32%nat
  ∧ Callback.state_matches
      {| Callback.query :=
           CallbackScenario.params (Authorize.toHex HandshakeScenario.entropy);
         Callback.cookie :=
           Some ("shopify_nonce=" +:+ Authorize.toHex HandshakeScenario.entropy) |}.
Proof.
  destruct (Authorize.handler HandshakeScenario.env None HandshakeScenario.entropy)
    as [status error|location set_cookie] eqn:Hh; [vm_compute in Hh; discriminate|].
  destruct (handshake_nonce_round_trip _ _ _ _ _ Hh) as (Hlen & _ & _ & Hguard).
  split; [exact Hlen|]. apply Hguard. vm_compute. reflexivity.
Defined.

(** ** More on the authorization callback *)
Section CallbackMore.
Import Http Callback.
Context {World : Type}.
Variable hmac_sha256_hex : string → string → string.
Variable exchange : World → ExchangeCall → FetchResult TokenData * World.

Abbreviation callback_handler := (Callback.handler hmac_sha256_hex exchange).

Lemma exchange_code_call key secret code shop w resp w' calls :
  exchange_code exchange key secret code shop w = (resp, w', calls) →
  let c := {| url := "https://" +:+ render shop +:+ "/admin/oauth/access_token";
              client_id := key; client_secret := secret; code := code |} in
  calls = [c] ∧ w' = (exchange w c).2
  ∧ resp = match (exchange w c).1 with
           | FetchRejected _ => Json 500 "Authentication failed"
           | FetchResponse status body =>
               if negb (ok status) then Json 500 "Failed to get access token"
               else
                 match body with
                 | JsonRejected _ => Json 500 "Authentication failed"
                 | JsonValue tokenData =>
                     Redirect "/"
                       [ "shopify_access_token="
                           +:+ default "undefined" (access_token tokenData)
                           +:+ "; Path=/; HttpOnly; Secure; SameSite=Lax; Max-Age=31536000";
                         "shopify_shop=" +:+ render shop
                           +:+ "; Path=/; HttpOnly; Secure; SameSite=Lax; Max-Age=31536000";
                         "shopify_nonce=; Path=/; HttpOnly; Secure; SameSite=Lax; Max-Age=0" ]
                 end
           end.
Proof.
  intros H c. unfold exchange_code in H. subst c.
  destruct (exchange w _) as [r w1]. by injection H as <- <- <-.
Qed.

(** X12.  The callback sets the credential cookies only at the end of a
    complete handshake: a redirect means that [state] matched the nonce
    cookie, that the HMAC guard let the request through, and that the one
    call made - the POST of [code] with the API key and secret to the
    shop's token endpoint - was answered with a 2xx status and a JSON body.
    The redirect goes to [/] and sets three cookies: the token the body
    names (the text "undefined" when it names none), the shop, and an
    expired [shopify_nonce]. *)
Theorem callback_cookies_only_after_exchange env req w location cookies w' calls :
  callback_handler env req w = (Redirect location cookies, w', calls) →
  state_matches req
  ∧ ∃ code shop key secret status tokenData,
      query req !! "code" = Some code ∧ query req !! "shop" = Some shop
      ∧ SHOPIFY_API_KEY env = Some key ∧ SHOPIFY_API_SECRET env = Some secret
      ∧ hmac_invalid hmac_sha256_hex secret req = false
      ∧ let c := {| url := "https://" +:+ render shop
                           +:+ "/admin/oauth/access_token";
                    client_id := key; client_secret := secret; code := code |} in
        calls = [c]
        ∧ exchange w c = (FetchResponse status (JsonValue tokenData), w')
        ∧ ok status = true
        ∧ location = "/"
        ∧ cookies
          = [ "shopify_access_token="
                +:+ default "undefined" (access_token tokenData)
                +:+ "; Path=/; HttpOnly; Secure; SameSite=Lax; Max-Age=31536000";
              "shopify_shop=" +:+ render shop
                +:+ "; Path=/; HttpOnly; Secure; SameSite=Lax; Max-Age=31536000";
              "shopify_nonce=; Path=/; HttpOnly; Secure; SameSite=Lax; Max-Age=0" ].
Proof.
  intros Hh.
  destruct (handler_calls _ _ _ _ _ _ _ _ Hh)
    as [(_ & _ & status & error & [=] & _)
       |(code & shop & state & key & secret & Hc & Hs & Hst & Hk & Hsec & Hne & Hi & He)].
  split.
  - apply strict_ne_false in Hne as (nonce & -> & Hn). by exists nonce.
  - apply exchange_code_call in He as (Hcalls & Hw & Hresp).
    destruct (exchange w _) as [r w1] eqn:Hx. cbn [fst snd] in *.
    destruct r as [e|status [e|tokenData]]; try discriminate.
    { destruct (negb (ok status)); discriminate. }
    destruct (ok status) eqn:Hok; [|discriminate]. cbn [negb] in Hresp.
    injection Hresp as -> ->. subst w'.
    exists code, shop, key, secret, status, tokenData.
    by repeat split.
Qed.

(** X13.  The callback never retries the token exchange: it makes at most
    one call, and if that call is not answered, is answered with a status
    outside 200-299, or with a body that is not JSON, the request ends with
    a 500 and no cookie is set. *)
Theorem callback_exchange_not_retried env req w resp w' calls :
  callback_handler env req w = (resp, w', calls) →
  (List.length calls ≤ 1)%nat
  ∧ ∀ c, calls = [c] →
         match (exchange w c).1 with
         | FetchResponse status (JsonValue _) =>
             ok status = false → resp = Json 500 "Failed to get access token"
         | FetchResponse status (JsonRejected _) =>
             resp = Json 500 (if ok status then "Authentication failed"
                              else "Failed to get access token")
         | FetchRejected _ => resp = Json 500 "Authentication failed"
         end.
Proof.
  intros Hh.
  destruct (handler_calls _ _ _ _ _ _ _ _ Hh)
    as [(-> & _)
       |(code & shop & state & key & secret & _ & _ & _ & _ & _ & _ & _ & He)].
  { split; [simpl; lia|]. intros c [=]. }
  apply exchange_code_call in He as (-> & _ & ->).
  split; [simpl; lia|]. intros c [= <-].
  destruct (exchange w _) as [r w1]. cbn [fst].
  destruct r as [e|status [e|tokenData]]; [done| |].
  - by destruct (ok status).
  - by intros ->.
Qed.

(** X14.  The message the HMAC is computed over lists every query
    parameter except [hmac] exactly once, in ascending code-unit order of
    the keys, each as [key=value] with ['&'] between them; the value of
    [hmac] itself has no part in it. *)
Theorem hmac_message_keys (q : gmap string QueryValue) :
  (∃ kvs : list (string * QueryValue),
     Sorted (λ a b, JS.compare_code_units a b ≤ 0) kvs.*1
     ∧ NoDup kvs.*1
     ∧ (∀ k v, (k, v) ∈ kvs ↔ k ≠ "hmac" ∧ q !! k = Some v)
     ∧ message (delete "hmac" q)
       = JS.join "&" ((λ kv, kv.1 +:+ "=" +:+ render kv.2) <$> kvs))
  ∧ ∀ supplied,
      message (delete "hmac" (<["hmac" := supplied]> q))
      = message (delete "hmac" q).
Proof.
  split; [apply message_layout|].
  intros supplied. by rewrite delete_insert_eq.
Qed.

End CallbackMore.

(** The witness of [callback_cookies_only_after_exchange]: the signed
    callback is redirected after one call. *)
Lemma callback_cookies_only_after_exchange_witness :
  Callback.state_matches HandshakeScenario.signed.
Proof.
  destruct (Callback.handler CallbackScenario.digest
              CallbackScenario.token_endpoint CallbackScenario.env
              HandshakeScenario.signed 0%nat) as [[resp w'] calls] eqn:Hh.
  destruct resp as [status error|location cookies];
    [vm_compute in Hh; discriminate|].
  exact (proj1 (callback_cookies_only_after_exchange CallbackScenario.digest
                  CallbackScenario.token_endpoint _ _ _ _ _ _ _ Hh)).
Defined.

(** The witness of [callback_exchange_not_retried]: with the token
    endpoint answering 503, the signed callback ends in a 500 after its one
    call. *)
Lemma callback_exchange_not_retried_witness :
  (List.length
     (Callback.handler CallbackScenario.digest
        HandshakeScenario.token_endpoint_down CallbackScenario.env
        HandshakeScenario.signed 0%nat).2 ≤ 1)%nat.
Proof.
  destruct (Callback.handler CallbackScenario.digest
              HandshakeScenario.token_endpoint_down CallbackScenario.env
              HandshakeScenario.signed 0%nat) as [[resp w'] calls] eqn:Hh.
  exact (proj1 (callback_exchange_not_retried CallbackScenario.digest
                  HandshakeScenario.token_endpoint_down _ _ _ _ _ _ Hh)).
Defined.

Example callback_endpoint_down :
  (Callback.handler CallbackScenario.digest
     HandshakeScenario.token_endpoint_down CallbackScenario.env
     HandshakeScenario.signed 0%nat).1
  = (Callback.Json 500 "Failed to get access token", 1%nat).
Proof. vm_compute. reflexivity. Qed.

(** ** The page *)
Section PageFacts.
Import Http Reader Diff Page.

Lemma load_lookup_other products : ∀ (m : gmap string string) k,
  k ∉ id <$> products →
  foldl (λ initialValues product,
           <[id product := JS.toString (currentStock product)]> initialValues)
        m products !! k
  = m !! k.
Proof.
  induction products as [|q rest IH]; intros m k Hk; [done|].
  cbn [foldl]. rewrite fmap_cons in Hk. apply not_elem_of_cons in Hk as [Hq Hk].
  rewrite IH by done. by rewrite lookup_insert_ne.
Qed.

Lemma load_lookup products : ∀ (m : gmap string string) p,
  NoDup (id <$> products) → p ∈ products →
  foldl (λ initialValues product,
           <[id product := JS.toString (currentStock product)]> initialValues)
        m products !! id p
  = Some (JS.toString (currentStock p)).
Proof.
  induction products as [|q rest IH]; intros m p Hnd Hp.
  - by apply elem_of_nil in Hp.
  - rewrite fmap_cons in Hnd. apply NoDup_cons in Hnd as [Hq Hnd].
    cbn [foldl]. apply elem_of_cons in Hp as [->|Hp].
    + rewrite load_lookup_other by done. by rewrite lookup_insert_eq.
    + by apply IH.
Qed.

Lemma filter_none {B} (f : B → bool) l :
  (∀ x, x ∈ l → f x = false) → List.filter f l = [].
Proof.
  induction l as [|x rest IH]; intros H; [done|].
  cbn [List.filter]. rewrite (H x) by by left.
  apply IH. intros y Hy. apply H. by right.
Qed.

(** X15.  Right after a load, and right after a discard, nothing is
    pending: for a baseline whose records have distinct ids, the diff of the
    baseline against the values the page stores for it is empty. *)
Theorem fresh_values_no_changes products :
  NoDup (id <$> products) →
  changes products (initialValues products) = []
  ∧ changes products (handleDiscard products) = [].
Proof.
  intros Hnd.
  assert (H : changes products (initialValues products) = []); [|done].
  rewrite changes_filter.
  assert (Hf : List.filter (edited (initialValues products)) products = []);
    [|by rewrite Hf].
  apply filter_none. intros p Hp.
  unfold edited, initialValues. rewrite load_lookup by done.
  by rewrite String.eqb_refl.
Qed.

Lemma digit_value_nonneg c : JS.is_digit c = true → 0 ≤ JS.digit_value c.
Proof.
  unfold JS.is_digit, JS.digit_value.
  intros [H%Nat.leb_le _]%andb_true_iff. lia.
Qed.

Lemma read_digits_all_digits s : ∀ a,
  JS.all_digits s = true → 0 ≤ a →
  ∃ n, JS.read_digits (Some a) s = Some n ∧ 0 ≤ n.
Proof.
  induction s as [|c s IH]; intros a Hs Ha; [by exists a|].
  cbn [JS.all_digits] in Hs. apply andb_true_iff in Hs as [Hc Hs].
  cbn [JS.read_digits]. rewrite Hc. apply IH; [done|].
  pose proof (digit_value_nonneg c Hc). cbn [default].
  change (Datatypes.id a) with a. lia.
Qed.

(** A non-empty text of digits parses to a non-negative number. *)
Lemma parseInt_all_digits v :
  JS.all_digits v = true → v ≠ "" →
  ∃ n, JS.parseInt v = Some n ∧ 0 ≤ n.
Proof.
  destruct v as [|c rest]; [done|]. intros Hv _.
  cbn [JS.all_digits] in Hv. apply andb_true_iff in Hv as [Hc Hrest].
  rewrite parseInt_digit_head by done. cbn [JS.read_digits]. rewrite Hc.
  apply read_digits_all_digits; [done|].
  pose proof (digit_value_nonneg c Hc). cbn [default]. lia.
Qed.

Lemma digits_only_handleStockChange prev productId value :
  digits_only prev → digits_only (handleStockChange prev productId value).
Proof.
  intros Hprev. unfold handleStockChange.
  destruct (String.eqb_spec value "") as [->|Hne]; cbn [negb andb].
  - intros k v. rewrite lookup_insert. case_decide; [by intros [= <-]|apply Hprev].
  - destruct (JS.all_digits value) eqn:Hd; cbn [negb]; [|done].
    intros k v. rewrite lookup_insert.
    case_decide; [by intros [= <-]|apply Hprev].
Qed.

Lemma digits_only_type_all events : ∀ stockValues,
  digits_only stockValues → digits_only (type_all stockValues events).
Proof.
  induction events as [|e rest IH]; intros stockValues H; [done|].
  apply IH. by apply digits_only_handleStockChange.
Qed.

Lemma digits_only_load products : ∀ m,
  (∀ p, p ∈ products → 0 ≤ currentStock p) → digits_only m →
  digits_only
    (foldl (λ initialValues product,
              <[id product := JS.toString (currentStock product)]> initialValues)
           m products).
Proof.
  induction products as [|q rest IH]; intros m Hpos Hm; [done|].
  cbn [foldl]. apply IH.
  - intros p Hp. apply Hpos. by right.
  - intros k v. rewrite lookup_insert. case_decide; [|apply Hm].
    intros [= <-]. apply all_digits_toString, Hpos. by left.
Qed.

Lemma elem_of_changes products stockValues c :
  c ∈ changes products stockValues →
  ∃ product, product ∈ products ∧ edited stockValues product = true
             ∧ c = change stockValues product.
Proof.
  rewrite changes_filter. intros (product & -> & Hp)%list_elem_of_fmap.
  apply list_elem_of_In, filter_In in Hp as [Hp He].
  exists product. by rewrite list_elem_of_In.
Qed.

(** X16.  The input filter keeps the edit buffer numeric, and so every
    quantity the page submits: starting from the values loaded for a
    baseline without negative stock, after any run of input events every
    stored text is made of digits, and every change of the diff carries a
    new value that is a number, never NaN and never negative. *)
Theorem edits_yield_quantities products events :
  (∀ p, p ∈ products → 0 ≤ currentStock p) →
  let stockValues := type_all (initialValues products) events in
  digits_only stockValues
  ∧ ∀ c, c ∈ changes products stockValues →
         ∃ n, newValue c = Some n ∧ 0 ≤ n.
Proof.
  intros Hpos stockValues.
  assert (Hd : digits_only stockValues).
  { apply digits_only_type_all, digits_only_load; [done|].
    intros k v. by rewrite lookup_empty. }
  split; [done|].
  intros c (product & _ & He & ->)%elem_of_changes.
  apply edited_true in He as (v & Hv & Hne & _).
  cbn [newValue change]. rewrite Hv. cbn [default].
  apply parseInt_all_digits; [by eapply Hd|done].
Qed.

(** X17.  The two versions of the diff agree: the [filter]/[map] chain of
    the first page and the [forEach]/[push] loop of the second compute the
    same list of changes, in the same order. *)
Theorem changes_versions_agree products stockValues :
  changes_filter_map products stockValues = changes products stockValues.
Proof. by rewrite changes_filter. Qed.

Context {World : Type}.
Variable graphql : World → BridgeMutation → (Thrown + option (list GqlError)) * World.



End PageFacts.

(** The witness of [fresh_values_no_changes]. *)
Lemma fresh_values_no_changes_witness :
  Diff.changes PageScenario.rows (Page.initialValues PageScenario.rows) = [].
Proof.
  apply (fresh_values_no_changes PageScenario.rows).
  apply (bool_decide_unpack _). vm_compute. exact I.
Defined.

(** The witness of [edits_yield_quantities]: after the scenario's
    keystrokes the buffer is made of digits. *)
Lemma edits_yield_quantities_witness :
  Page.digits_only
    (Page.type_all (Page.initialValues PageScenario.rows) PageScenario.events).
Proof.
  apply (edits_yield_quantities PageScenario.rows PageScenario.events).
  intros p Hp. unfold PageScenario.rows in Hp.
  repeat (apply elem_of_cons in Hp as [->|Hp]); [..|by apply elem_of_nil in Hp];
    simpl; lia.
Defined.


Example bridge_save_toast :
  (Page.handleSave PageScenario.bridge "62584946887" PageScenario.pending 0%nat).1.1
  = Some (Page.ToastError "Updated 1, failed 2").
Proof. vm_compute. reflexivity. Qed.

Example scenario_changes :
  Diff.changes PageScenario.rows
    (Page.type_all (Page.initialValues PageScenario.rows) PageScenario.events)
  = [ {| Diff.c_inventoryItemId := "gid://shopify/InventoryItem/2";
         Diff.c_sku := "PNL-002";
         Diff.oldValue := 9; Diff.newValue := Some 12 |} ].
Proof. vm_compute. reflexivity. Qed.

(** ** The search box and the first loader *)
Section SearchFacts.
Import Http Reader Search.
Variable toLowerCase : string → string.

Lemma filter_sublist {B} (f : B → bool) l : List.filter f l `sublist_of` l.
Proof.
  induction l as [|x rest IH]; [done|]. cbn [List.filter].
  destruct (f x); by constructor.
Qed.

Lemma filter_filter_implied {B} (f g : B → bool) l :
  (∀ x, f x = true → g x = true) →
  List.filter f (List.filter g l) = List.filter f l.
Proof.
  intros Hfg. induction l as [|x rest IH]; [done|]. cbn [List.filter].
  destruct (g x) eqn:Hg; cbn [List.filter].
  - by rewrite IH.
  - destruct (f x) eqn:Hf; [|done]. apply Hfg in Hf. congruence.
Qed.

(** X19.  The search box only hides rows, and the second page hides no row
    the first page showed.  A query that is empty or white space shows
    every product; any other query shows a sub-list of the products in
    their order; and what the first page's search (SKU, product title)
    shows is what its test keeps of the second page's result (SKU, product
    title, variant title). *)
Theorem search_narrows products searchQuery :
  (JS.trim searchQuery = "" →
   filteredProducts toLowerCase products searchQuery = products
   ∧ filteredProducts_first toLowerCase products searchQuery = products)
  ∧ filteredProducts toLowerCase products searchQuery `sublist_of` products
  ∧ filteredProducts_first toLowerCase products searchQuery
    `sublist_of` filteredProducts toLowerCase products searchQuery
  ∧ (JS.trim searchQuery ≠ "" →
     filteredProducts_first toLowerCase products searchQuery
     = List.filter (matches_first toLowerCase (toLowerCase searchQuery))
         (filteredProducts toLowerCase products searchQuery)).
Proof.
  unfold filteredProducts, filteredProducts_first, JS.truthy.
  assert (Himp : ∀ q x, matches_first toLowerCase q x = true →
                        matches toLowerCase q x = true).
  { intros q x. unfold matches, matches_first. intros ->. done. }
  destruct (String.eqb_spec (JS.trim searchQuery) "") as [He|Hne]; cbn [negb].
  - by repeat split.
  - split; [done|]. split; [apply filter_sublist|]. split.
    + rewrite <- (filter_filter_implied _ _ _ (Himp (toLowerCase searchQuery))).
      apply filter_sublist.
    + intros _. symmetry. apply filter_filter_implied, Himp.
Qed.

Lemma find_named_none (qs : list QuantityEntry) :
  Forall (λ q, qe_name q ≠ Some "available") qs →
  JS.find (λ q, bool_decide (qe_name q = Some "available")) qs = None.
Proof.
  induction 1 as [|q rest Hq _ IH]; [done|]. cbn [JS.find].
  by rewrite bool_decide_eq_false_2.
Qed.

(** X20.  The first page's loader takes a row's stock from the entry of
    [quantities] whose [name] is "available".  A reply whose entries carry
    no such name - and the loader's query selects only [quantity], never
    [name] - gives stock 0, whatever quantities it reports; an entry that
    does carry the name gives its quantity, with [null] read as 0, and the
    first such entry wins. *)
Theorem first_loader_stock quantities :
  (∀ qs, quantities = Some qs →
         Forall (λ q, qe_name q ≠ Some "available") qs →
         stock_of_quantities quantities = 0)
  ∧ (quantities = None → stock_of_quantities quantities = 0)
  ∧ (∀ before q after,
       quantities = Some (before ++ q :: after) →
       Forall (λ q, qe_name q ≠ Some "available") before →
       qe_name q = Some "available" →
       stock_of_quantities quantities = default 0 (qe_quantity q)).
Proof.
  unfold stock_of_quantities. split; [|split].
  - intros qs -> Hqs. cbn [mbind option_bind]. by rewrite find_named_none.
  - by intros ->.
  - intros before q after -> Hbefore Hq. cbn [mbind option_bind].
    assert (JS.find (λ q, bool_decide (qe_name q = Some "available"))
              (before ++ q :: after) = Some q) as ->.
    { induction Hbefore as [|b rest Hb _ IH]; cbn [app JS.find].
      - by rewrite bool_decide_eq_true_2.
      - by rewrite bool_decide_eq_false_2. }
    cbn [mbind option_bind]. unfold JS.or_zero.
    destruct (qe_quantity q) as [n|]; [|done].
    cbn [default]. destruct (Z.eqb_spec n 0); [by subst|done].
Qed.

End SearchFacts.
